(** * Google Drive permission sync: a shallow embedding of
      [backend/ee/onyx/external_permissions/google_drive/doc_sync.py]

    The module keeps one process-wide dict ([_PERMISSION_ID_PERMISSION_MAP]),
    talks to the Drive permission listing, logs warnings, polls a heartbeat
    callback and yields one record per document.  All of these are effects of
    one computation; they are modelled by a state-and-exception monad whose
    state holds the dict and a chronological trace of observable events. *)

From stdpp Require Import gmap strings list.

Open Scope string_scope.
Open Scope list_scope.

(** ** Data *)

(** A permission object of the Drive API: a JSON object restricted by the
    request's field mask to [id], [emailAddress], [type] and [domain], all of
    them strings.  A Python dict is falsy exactly when it is empty. *)
Abbreviation Permission := (gmap string string).

(** [slim_doc.perm_sync_data]: the keys the module reads, each possibly
    absent. *)
Record PermSyncData := {
  permissions : option (list Permission);
  permission_ids : option (list string);
  psd_doc_id : option string;
  owner_email : option string;
  drive_id : option string;
}.

Record SlimDocument := {
  slim_id : string;
  perm_sync_data : option PermSyncData;
}.

Record ExternalAccess := {
  external_user_emails : gset string;
  external_user_group_ids : gset string;
  is_public : bool;
}.

Record DocExternalAccess := {
  external_access : ExternalAccess;
  doc_id : string;
}.

(** The three [logger.warning] calls of the module, kept structured. *)
Inductive diagnostic :=
| NoPermissionsFound (doc : string)
| DomainMismatch (permission : Permission)
| SkippedPermissions (skipped total : nat) (doc : string).

Inductive exn :=
| KeyError (key : string)
| RuntimeError (msg : string).

(** Everything the module does that an observer can see, in order. *)
Inductive event :=
| EvShouldStop (answer : bool)
| EvProgress (tag : string) (amount : nat)
| EvFetch (user_email file_id : string)
| EvWarning (d : diagnostic)
| EvYield (r : DocExternalAccess).

(** [IndexingHeartbeatInterface]: [should_stop] is an oracle over what has
    happened so far; [progress] is an effect and shows up in the trace. *)
Record IndexingHeartbeatInterface := {
  should_stop : list event → bool;
}.

(** Modelled from the spec: the permission listing capability
    ([execute_paginated_retrieval] over [permissions().list], which is not
    part of this module).  Section 6 gives its contract: a sequence of
    permission entries, with not-found and forbidden surfaced as an empty
    result when [continue_on_404_or_403] is set. *)
Inductive fetch_response :=
| Listed (entries : list Permission)
| NotFound
| Forbidden.

Definition response_entries (r : fetch_response) : list Permission :=
  match r with
  | Listed entries => entries
  | NotFound | Forbidden => []
  end.

(** The connector object after [load_credentials]: the attributes this module
    reads, and the slim-document listing for a time window. *)
Record GoogleDriveConnector := {
  primary_admin_email : string;
  google_domain : option string;
  retrieve_all_slim_documents : Z → Z → list (list SlimDocument);
}.

Record ConnectorCredentialPair := {
  connector : GoogleDriveConnector;
  last_time_perm_sync : option Z;
}.

(** ** The effect monad *)

Record world := {
  cache : gmap string Permission;   (* _PERMISSION_ID_PERMISSION_MAP *)
  trace : list event;
}.

Inductive outcome (A : Type) :=
| Ok (a : A)
| Raise (e : exn).
Arguments Ok {A} a.
Arguments Raise {A} e.

Definition Eff (A : Type) : Type := world → outcome A * world.

#[global] Instance Eff_ret : MRet Eff := λ A a w, (Ok a, w).

#[global] Instance Eff_bind : MBind Eff := λ A B f m w,
  match m w with
  | (Ok a, w') => f a w'
  | (Raise e, w') => (Raise e, w')
  end.

Definition raise {A} (e : exn) : Eff A := λ w, (Raise e, w).

Definition emit (e : event) : Eff unit :=
  λ w, (Ok tt, {| cache := cache w; trace := trace w ++ [e] |}).

Definition warning (d : diagnostic) : Eff unit := emit (EvWarning d).

Definition read_cache : Eff (gmap string Permission) := λ w, (Ok (cache w), w).

Definition cache_store (pid : string) (p : Permission) : Eff unit :=
  λ w, (Ok tt, {| cache := <[pid := p]> (cache w); trace := trace w |}).

Definition read_trace : Eff (list event) := λ w, (Ok (trace w), w).

(** ** Python truthiness *)

Definition str_truthy (s : option string) : bool :=
  match s with
  | Some s => negb (bool_decide (s = ""))
  | None => false
  end.

Definition list_truthy {A} (l : option (list A)) : bool :=
  match l with
  | Some (_ :: _) => true
  | _ => false
  end.

Definition perm_truthy (p : Permission) : bool := negb (bool_decide (p = ∅)).

Definition empty_info : PermSyncData :=
  {| permissions := None; permission_ids := None; psd_doc_id := None;
     owner_email := None; drive_id := None |}.

(** [not permission_info]: no key is present. *)
Definition info_truthy (i : PermSyncData) : bool :=
  match permissions i, permission_ids i, psd_doc_id i, owner_email i, drive_id i with
  | None, None, None, None, None => false
  | _, _, _, _, _ => true
  end.

Section DocSync.

(** The Drive service: what [permissions().list] answers for a file under an
    acting identity. *)
Variable drive : string → string → fetch_response.

(** The clock reading taken by [_get_slim_doc_generator]. *)
Variable current_time : Z.

Definition execute_paginated_retrieval (user_email file_id : string)
  : Eff (list Permission) :=
  emit (EvFetch user_email file_id);;
  mret (response_entries (drive user_email file_id)).

Definition _get_slim_doc_generator (cc_pair : ConnectorCredentialPair)
    (google_drive_connector : GoogleDriveConnector) : list (list SlimDocument) :=
  let start_time := default 0%Z (last_time_perm_sync cc_pair) in
  retrieve_all_slim_documents google_drive_connector start_time current_time.

(** Lines 76-79: append every fetched permission and file it under its id. *)
Fixpoint store_fetched (fetched permissions_for_doc_id : list Permission)
  : Eff (list Permission) :=
  match fetched with
  | [] => mret permissions_for_doc_id
  | permission :: rest =>
      match permission !! "id" with
      | Some pid =>
          cache_store pid permission;;
          store_fetched rest (permissions_for_doc_id ++ [permission])
      | None => raise (KeyError "id")
      end
  end.

Definition _fetch_permissions_for_permission_ids
    (google_drive_connector : GoogleDriveConnector)
    (permission_ids : list string) (permission_info : PermSyncData)
  : Eff (list Permission) :=
  let doc := psd_doc_id permission_info in
  if negb (info_truthy permission_info) || negb (str_truthy doc) then mret []
  else
    m ← read_cache;
    let cached := omap (λ pid, m !! pid) permission_ids in
    if (length cached =? length permission_ids)%nat then mret cached
    else
      let owner := owner_email permission_info in
      let user_email :=
        if str_truthy owner then default "" owner
        else primary_admin_email google_drive_connector in
      fetched ← execute_paginated_retrieval user_email (default "" doc);
      store_fetched fetched [].

(** Lines 107-110: the four locals the classification loop updates. *)
Record tally := {
  user_emails : gset string;
  group_emails : gset string;
  public : bool;
  skipped_permissions : nat;
}.

Definition tally0 : tally :=
  {| user_emails := ∅; group_emails := ∅; public := false;
     skipped_permissions := 0 |}.

(** Lines 113-131: the body of the classification loop. *)
Definition classify_permission (company_domain : option string)
    (acc : tally) (permission : Permission) : Eff tally :=
  if negb (perm_truthy permission) then
    mret {| user_emails := user_emails acc; group_emails := group_emails acc;
            public := public acc;
            skipped_permissions := S (skipped_permissions acc) |}
  else
    match permission !! "type" with
    | None => raise (KeyError "type")
    | Some permission_type =>
        if bool_decide (permission_type = "user") then
          match permission !! "emailAddress" with
          | None => raise (KeyError "emailAddress")
          | Some email =>
              mret {| user_emails := user_emails acc ∪ {[email]};
                      group_emails := group_emails acc; public := public acc;
                      skipped_permissions := skipped_permissions acc |}
          end
        else if bool_decide (permission_type = "group") then
          match permission !! "emailAddress" with
          | None => raise (KeyError "emailAddress")
          | Some email =>
              mret {| user_emails := user_emails acc;
                      group_emails := group_emails acc ∪ {[email]};
                      public := public acc;
                      skipped_permissions := skipped_permissions acc |}
          end
        else if bool_decide (permission_type = "domain")
                && str_truthy company_domain then
          if bool_decide (permission !! "domain" = company_domain) then
            mret {| user_emails := user_emails acc;
                    group_emails := group_emails acc; public := true;
                    skipped_permissions := skipped_permissions acc |}
          else
            warning (DomainMismatch permission);;
            mret acc
        else if bool_decide (permission_type = "anyone") then
          mret {| user_emails := user_emails acc;
                  group_emails := group_emails acc; public := true;
                  skipped_permissions := skipped_permissions acc |}
        else mret acc
    end.

Fixpoint classify_loop (company_domain : option string)
    (permissions_list : list Permission) (acc : tally) : Eff tally :=
  match permissions_list with
  | [] => mret acc
  | permission :: rest =>
      acc' ← classify_permission company_domain acc permission;
      classify_loop company_domain rest acc'
  end.

(** Lines 100-104: the record of the early return. *)
Definition private_access : ExternalAccess :=
  {| external_user_emails := ∅; external_user_group_ids := ∅;
     is_public := false |}.

(** Lines 106-145: classification of a non-empty permission list. *)
Definition classify_permissions (google_drive_connector : GoogleDriveConnector)
    (slim_doc : SlimDocument) (permission_info : PermSyncData)
    (permissions_list : list Permission) : Eff ExternalAccess :=
  let company_domain := google_domain google_drive_connector in
  acc ← classify_loop company_domain permissions_list tally0;
  (if (0 <? skipped_permissions acc)%nat then
     warning (SkippedPermissions (skipped_permissions acc)
                (length permissions_list) (slim_id slim_doc))
   else mret tt);;
  let group_ids :=
    group_emails acc ∪
      (match drive_id permission_info with
       | Some d => {[d]}
       | None => ∅
       end) in
  mret {| external_user_emails := user_emails acc;
          external_user_group_ids := group_ids;
          is_public := public acc |}.

(** Lines 98-145: what the resolver does once the list is settled. *)
Definition access_of_permissions (google_drive_connector : GoogleDriveConnector)
    (slim_doc : SlimDocument) (permission_info : PermSyncData)
    (permissions_list : list Permission) : Eff ExternalAccess :=
  match permissions_list with
  | [] =>
      warning (NoPermissionsFound (slim_id slim_doc));;
      mret private_access
  | _ :: _ =>
      classify_permissions google_drive_connector slim_doc permission_info
        permissions_list
  end.

(** Lines 88-97: embedded entries if any, else the referenced ones. *)
Definition resolve_permissions_list
    (google_drive_connector : GoogleDriveConnector) (slim_doc : SlimDocument)
  : Eff (list Permission) :=
  let permission_info := default empty_info (perm_sync_data slim_doc) in
  let permissions_list := default [] (permissions permission_info) in
  match permissions_list with
  | _ :: _ => mret permissions_list
  | [] =>
      if list_truthy (permission_ids permission_info) then
        _fetch_permissions_for_permission_ids google_drive_connector
          (default [] (permission_ids permission_info)) permission_info
      else mret permissions_list
  end.

Definition _get_permissions_from_slim_doc
    (google_drive_connector : GoogleDriveConnector) (slim_doc : SlimDocument)
  : Eff ExternalAccess :=
  let permission_info := default empty_info (perm_sync_data slim_doc) in
  permissions_list ← resolve_permissions_list google_drive_connector slim_doc;
  access_of_permissions google_drive_connector slim_doc permission_info
    permissions_list.

(** ** The orchestrator *)

Definition poll (callback : IndexingHeartbeatInterface) : Eff bool :=
  t ← read_trace;
  let answer := should_stop callback t in
  emit (EvShouldStop answer);;
  mret answer.

Definition stop_message : string := "gdrive_doc_sync: Stop signal detected".

(** Lines 167-180: the body of the inner loop.  [yield] is the event
    [EvYield]; a caller that stops pulling sees a prefix of the trace. *)
Definition sync_slim_doc (callback : option IndexingHeartbeatInterface)
    (google_drive_connector : GoogleDriveConnector) (slim_doc : SlimDocument)
  : Eff unit :=
  (match callback with
   | Some cb =>
       stop ← poll cb;
       if stop : bool then raise (RuntimeError stop_message)
       else emit (EvProgress "gdrive_doc_sync" 1)
   | None => mret tt
   end);;
  ext_access ← _get_permissions_from_slim_doc google_drive_connector slim_doc;
  emit (EvYield {| external_access := ext_access; doc_id := slim_id slim_doc |}).

Fixpoint for_each {A} (body : A → Eff unit) (l : list A) : Eff unit :=
  match l with
  | [] => mret tt
  | x :: rest => body x;; for_each body rest
  end.

Definition gdrive_doc_sync (cc_pair : ConnectorCredentialPair)
    (callback : option IndexingHeartbeatInterface) : Eff unit :=
  let google_drive_connector := connector cc_pair in
  let slim_doc_generator :=
    _get_slim_doc_generator cc_pair google_drive_connector in
  for_each
    (λ slim_doc_batch,
       for_each (sync_slim_doc callback google_drive_connector) slim_doc_batch)
    slim_doc_generator.

End DocSync.


(** ** Reading the trace *)

Definition fetch_of (e : event) : option (string * string) :=
  match e with EvFetch u f => Some (u, f) | _ => None end.

Definition yield_of (e : event) : option DocExternalAccess :=
  match e with EvYield r => Some r | _ => None end.

Definition callback_event (e : event) : bool :=
  match e with EvShouldStop _ | EvProgress _ _ => true | _ => false end.

Definition resolver_event (e : event) : bool :=
  match e with EvFetch _ _ | EvWarning _ => true | _ => false end.

Definition warning_event (e : event) : bool :=
  match e with EvWarning _ => true | _ => false end.

(** The fetch calls, the emitted records and the callback traffic of a
    trace, each in order. *)
Definition fetches (t : list event) : list (string * string) := omap fetch_of t.
Definition yielded (t : list event) : list DocExternalAccess := omap yield_of t.
Definition callback_events (t : list event) : list event :=
  filter (λ e, callback_event e = true) t.

Definition log (t : list event) (w : world) : world :=
  {| cache := cache w; trace := trace w ++ t |}.

(** ** Well-formed permission entries *)

(** An entry the classification loop gets through: empty (skipped), or with
    a [type], and with an [emailAddress] when the type is user or group. *)
Definition classifiable (p : Permission) : bool :=
  if perm_truthy p then
    match p !! "type" with
    | None => false
    | Some t =>
        if bool_decide (t = "user") || bool_decide (t = "group")
        then bool_decide (is_Some (p !! "emailAddress"))
        else true
    end
  else true.

(** An entry the fetch loop can file in the cache. *)
Definition has_id (p : Permission) : bool := bool_decide (is_Some (p !! "id")).

Definition embedded_entries (d : SlimDocument) : list Permission :=
  default [] (permissions (default empty_info (perm_sync_data d))).

Definition info_of (d : SlimDocument) : PermSyncData :=
  default empty_info (perm_sync_data d).

(** The identity a fetch for this descriptor acts under (line 63). *)
Definition acting_identity (c : GoogleDriveConnector) (i : PermSyncData) : string :=
  if str_truthy (owner_email i) then default "" (owner_email i)
  else primary_admin_email c.

(** The entry a sequence of cache writes leaves under [pid]: the last one
    whose id is [pid]. *)
Fixpoint latest_with_id (pid : string) (l : list Permission) : option Permission :=
  match l with
  | [] => None
  | p :: rest =>
      match latest_with_id pid rest with
      | Some q => Some q
      | None => if bool_decide (p !! "id" = Some pid) then Some p else None
      end
  end.

(** Every entry of the cache is classifiable; every entry the Drive service
    returns is classifiable and carries an id. *)
Definition cache_classifiable (w : world) : Prop :=
  map_Forall (λ _ p, classifiable p = true) (cache w).

Definition drive_well_formed (drive : string → string → fetch_response) : Prop :=
  ∀ u f, Forall (λ p, has_id p = true ∧ classifiable p = true)
           (response_entries (drive u f)).

Definition set_public (acc : tally) : tally :=
  {| user_emails := user_emails acc; group_emails := group_emails acc;
     public := true; skipped_permissions := skipped_permissions acc |}.

(** The only exception the resolver can raise is a [KeyError]. *)
Definition key_error_only {A} (out : outcome A) : Prop :=
  match out with
  | Raise (RuntimeError _) => False
  | _ => True
  end.

(** A computation that, from any world, extends the trace by fetches and
    warnings only and raises nothing but [KeyError]. *)
Definition resolver_step {A} (m : Eff A) : Prop :=
  ∀ w, ∃ out w' t, m w = (out, w')
    ∧ trace w' = trace w ++ t
    ∧ Forall (λ e, resolver_event e = true) t
    ∧ key_error_only out.

(** Heartbeats used as examples: one that never asks to stop, one that asks
    to stop once [n] units of progress have been recorded. *)
Definition never_stop : IndexingHeartbeatInterface :=
  {| should_stop := λ _, false |}.

Definition progress_of (e : event) : option nat :=
  match e with EvProgress _ n => Some n | _ => None end.

Definition stop_after (n : nat) : IndexingHeartbeatInterface :=
  {| should_stop := λ t, (n <=? sum_list (omap progress_of t))%nat |}.

(** ** The claims of the specification that the code does not meet, as
    stated *)

(** A parent-collection identifier always appears in the group set. *)
Definition drive_id_always_in_groups (drive : string → string → fetch_response)
    (c : GoogleDriveConnector) (d : SlimDocument) (w : world) : Prop :=
  ∀ g, drive_id (info_of d) = Some g →
    ∃ r w', _get_permissions_from_slim_doc drive c d w = (Ok r, w')
            ∧ g ∈ external_user_group_ids r.

(** The resolver returns a record whatever the descriptor. *)
Definition resolver_never_raises (drive : string → string → fetch_response)
    (c : GoogleDriveConnector) (d : SlimDocument) (w : world) : Prop :=
  ∃ r w', _get_permissions_from_slim_doc drive c d w = (Ok r, w').

(** All referenced identifiers cached: no fetch, and the record is the
    classification of the cached entries. *)
Definition cached_ids_are_classified (drive : string → string → fetch_response)
    (c : GoogleDriveConnector) (d : SlimDocument) (w : world) : Prop :=
  ∀ ids, permissions (info_of d) = None → permission_ids (info_of d) = Some ids →
    Forall (λ pid, is_Some (cache w !! pid)) ids →
    ∃ r w', _get_permissions_from_slim_doc drive c d w = (Ok r, w')
      ∧ fetches (trace w') = fetches (trace w)
      ∧ ∃ w'', access_of_permissions c d (info_of d)
                 (omap (λ pid, cache w !! pid) ids) w = (Ok r, w'').

(** Progress is recorded only after the record has been handed over. *)
Definition progress_after_emit (t : list event) : Prop :=
  ∀ i j r tag n,
    t !! i = Some (EvYield r) → t !! j = Some (EvProgress tag n) → i < j.

(** Some referenced identifier uncached: exactly one fetch. *)
Definition uncached_id_fetches_once (drive : string → string → fetch_response)
    (c : GoogleDriveConnector) (d : SlimDocument) (w : world) : Prop :=
  ∀ ids, permissions (info_of d) = None → permission_ids (info_of d) = Some ids →
    Exists (λ pid, cache w !! pid = None) ids →
    ∀ out w', _get_permissions_from_slim_doc drive c d w = (out, w') →
      length (fetches (trace w')) = S (length (fetches (trace w))).

(** A domain entry either marks the record public or is ignored with a
    diagnostic. *)
Definition domain_entry_public_or_diagnosed (company_domain : option string)
    (acc : tally) (p : Permission) (w : world) : Prop :=
  p !! "type" = Some "domain" →
  if str_truthy company_domain && bool_decide (p !! "domain" = company_domain)
  then ∃ acc', classify_permission company_domain acc p w = (Ok acc', w)
               ∧ public acc' = true
  else classify_permission company_domain acc p w
       = (Ok acc, log [EvWarning (DomainMismatch p)] w).


(** ** Concrete inputs *)

Definition world0 : world := {| cache := ∅; trace := [] |}.

Definition conn0 : GoogleDriveConnector :=
  {| primary_admin_email := "admin@x.com"; google_domain := Some "x.com";
     retrieve_all_slim_documents := λ _ _, [] |}.

Definition no_drive : string → string → fetch_response := λ _ _, NotFound.

Definition embedded (doc : string) (l : list Permission) : SlimDocument :=
  {| slim_id := doc;
     perm_sync_data := Some {| permissions := Some l; permission_ids := None;
                               psd_doc_id := Some doc; owner_email := None;
                               drive_id := None |} |}.

Definition referenced (doc : string) (ids : list string)
    (owner : option string) (drv : option string) : SlimDocument :=
  {| slim_id := doc;
     perm_sync_data := Some {| permissions := None; permission_ids := Some ids;
                               psd_doc_id := Some doc; owner_email := owner;
                               drive_id := drv |} |}.

Definition p_anyone : Permission := {[ "type" := "anyone" ]}.

Definition p_user1 : Permission :=
  <["id" := "p1"]> (<["type" := "user"]> {[ "emailAddress" := "u@x.com" ]}).

Definition drive_d2 : string → string → fetch_response :=
  λ user file, if bool_decide (file = "d2") then Listed [p_user1] else NotFound.

Definition p_no_type : Permission := {[ "id" := "p1" ]}.

Definition p_anyone1 : Permission := <["id" := "p1"]> {[ "type" := "anyone" ]}.

Definition p_domain : Permission :=
  <["type" := "domain"]> {[ "domain" := "y.com" ]}.

Definition info_drive_only : PermSyncData :=
  {| permissions := None; permission_ids := None; psd_doc_id := Some "d4";
     owner_email := None; drive_id := Some "drv" |}.

Definition doc_drive_only : SlimDocument :=
  {| slim_id := "d4"; perm_sync_data := Some info_drive_only |}.

Definition info_no_doc_id : PermSyncData :=
  {| permissions := None; permission_ids := Some ["p1"]; psd_doc_id := None;
     owner_email := None; drive_id := None |}.

Definition doc_no_doc_id : SlimDocument :=
  {| slim_id := "d5"; perm_sync_data := Some info_no_doc_id |}.

Definition info_d2 : PermSyncData :=
  {| permissions := None; permission_ids := Some ["p1"];
     psd_doc_id := Some "d2"; owner_email := Some "a@x.com";
     drive_id := Some "drv" |}.

Definition doc_d2 : SlimDocument :=
  {| slim_id := "d2"; perm_sync_data := Some info_d2 |}.

Definition info_d3 : PermSyncData :=
  {| permissions := None; permission_ids := Some ["p9"];
     psd_doc_id := Some "d3"; owner_email := None; drive_id := None |}.

Definition doc_d3 : SlimDocument :=
  {| slim_id := "d3"; perm_sync_data := Some info_d3 |}.

Definition info_d1 : PermSyncData :=
  {| permissions := Some [p_anyone]; permission_ids := None;
     psd_doc_id := Some "d1"; owner_email := None; drive_id := None |}.

Definition doc_d1 : SlimDocument :=
  {| slim_id := "d1"; perm_sync_data := Some info_d1 |}.

Definition doc_bad : SlimDocument := embedded "d6" [p_no_type].

Definition world_cached : world :=
  {| cache := {[ "p1" := p_anyone1 ]}; trace := [] |}.

Definition cc_of (stream : list (list SlimDocument)) : ConnectorCredentialPair :=
  {| connector :=
       {| primary_admin_email := "admin@x.com"; google_domain := Some "x.com";
          retrieve_all_slim_documents := λ _ _, stream |};
     last_time_perm_sync := None |}.

Definition public_access : ExternalAccess :=
  {| external_user_emails := ∅; external_user_group_ids := ∅;
     is_public := true |}.

Definition access_d2 : ExternalAccess :=
  {| external_user_emails := {["u@x.com"]};
     external_user_group_ids := {["drv"]}; is_public := false |}.

Definition world_d2 : world :=
  {| cache := {[ "p1" := p_user1 ]}; trace := [EvFetch "a@x.com" "d2"] |}.

Definition world_after_d1 : world :=
  {| cache := ∅;
     trace := [EvShouldStop false; EvProgress "gdrive_doc_sync" 1;
               EvYield {| external_access := public_access; doc_id := "d1" |}] |}.

Definition info_d7 : PermSyncData :=
  {| permissions := None; permission_ids := Some ["p1"];
     psd_doc_id := Some "d7"; owner_email := None; drive_id := None |}.

Definition doc_d7 : SlimDocument :=
  {| slim_id := "d7"; perm_sync_data := Some info_d7 |}.

Definition world_fetch_d3 : world :=
  {| cache := ∅; trace := [EvFetch "admin@x.com" "d3"] |}.

Definition world_after_run : world :=
  {| cache := {[ "p1" := p_user1 ]};
     trace := [EvYield {| external_access := public_access; doc_id := "d1" |};
               EvFetch "a@x.com" "d2";
               EvYield {| external_access := access_d2; doc_id := "d2" |}] |}.

(** ** A declarative reading of the classification loop *)

(** The email an entry of the given kind contributes. *)
Definition entry_emails (kind : string) (p : Permission) : gset string :=
  match p !! "type", p !! "emailAddress" with
  | Some t, Some e => if bool_decide (t = kind) then {[e]} else ∅
  | _, _ => ∅
  end.

(** An entry that opens the document to everyone: kind anyone, or kind
    domain with the connection's configured domain. *)
Definition grants_public (company_domain : option string) (p : Permission) : bool :=
  match p !! "type" with
  | Some t =>
      bool_decide (t = "anyone")
      || (bool_decide (t = "domain") && str_truthy company_domain
          && bool_decide (p !! "domain" = company_domain))
  | None => false
  end.

(** The warning a domain entry of another domain leaves. *)
Definition mismatch_warning (company_domain : option string) (p : Permission)
  : option event :=
  match p !! "type" with
  | Some t =>
      if bool_decide (t = "domain") && str_truthy company_domain
         && negb (bool_decide (p !! "domain" = company_domain))
      then Some (EvWarning (DomainMismatch p))
      else None
  | None => None
  end.

Definition mismatch_warnings (company_domain : option string)
    (l : list Permission) : list event :=
  omap (mismatch_warning company_domain) l.

Definition skipped_count (l : list Permission) : nat :=
  length (filter (λ p, p = ∅) l).

Definition tally_add (company_domain : option string) (acc : tally)
    (p : Permission) : tally :=
  {| user_emails := user_emails acc ∪ entry_emails "user" p;
     group_emails := group_emails acc ∪ entry_emails "group" p;
     public := public acc || grants_public company_domain p;
     skipped_permissions :=
       skipped_permissions acc + (if perm_truthy p then 0 else 1) |}.

(** The key the subscript of lines 117-121 misses on an entry that is not
    classifiable. *)
Definition missing_key (p : Permission) : string :=
  match p !! "type" with
  | None => "type"
  | Some _ => "emailAddress"
  end.

(** What the callback sees for a document that passes the check. *)
Definition progress_round : list event :=
  [EvShouldStop false; EvProgress "gdrive_doc_sync" 1].

(** No key of the cache is ever dropped. *)
Definition cache_grows (w w' : world) : Prop :=
  ∀ pid, is_Some (cache w !! pid) → is_Some (cache w' !! pid).

(** Every cached entry is filed under its own [id]. *)
Definition cache_keyed_by_id (w : world) : Prop :=
  ∀ pid p, cache w !! pid = Some p → p !! "id" = Some pid.

Definition callback_round (callback : option IndexingHeartbeatInterface)
  : list event :=
  match callback with
  | Some _ => progress_round
  | None => []
  end.

Definition info_mixed : PermSyncData :=
  {| permissions := Some [p_domain; p_no_type; p_anyone];
     permission_ids := None; psd_doc_id := Some "d8"; owner_email := None;
     drive_id := None |}.

Definition doc_mixed : SlimDocument :=
  {| slim_id := "d8"; perm_sync_data := Some info_mixed |}.

Definition doc_warn : SlimDocument := embedded "d9" [p_domain; ∅; p_anyone].

Definition world_warn : world :=
  {| cache := ∅;
     trace := [EvWarning (DomainMismatch p_domain);
               EvWarning (SkippedPermissions 1 3 "d9")] |}.

Definition info_ab : PermSyncData :=
  {| permissions := Some [p_anyone; p_user1]; permission_ids := None;
     psd_doc_id := Some "a"; owner_email := None; drive_id := None |}.

Definition info_ba : PermSyncData :=
  {| permissions := Some [p_user1; p_anyone]; permission_ids := None;
     psd_doc_id := Some "b"; owner_email := None; drive_id := None |}.

Definition doc_ab : SlimDocument :=
  {| slim_id := "a"; perm_sync_data := Some info_ab |}.

Definition doc_ba : SlimDocument :=
  {| slim_id := "b"; perm_sync_data := Some info_ba |}.

Definition access_ab : ExternalAccess :=
  {| external_user_emails := {["u@x.com"]}; external_user_group_ids := ∅;
     is_public := true |}.

Definition drive_partial : string → string → fetch_response :=
  λ _ _, Listed [p_user1; p_anyone; p_anyone1].

Definition world_d3_once : world :=
  {| cache := ∅;
     trace := [EvFetch "admin@x.com" "d3";
               EvWarning (NoPermissionsFound "d3")] |}.

Definition world_d3_twice : world :=
  {| cache := ∅;
     trace := [EvFetch "admin@x.com" "d3";
               EvWarning (NoPermissionsFound "d3");
               EvFetch "admin@x.com" "d3";
               EvWarning (NoPermissionsFound "d3")] |}.


(** No usable permission entry (every resolved entry is skipped as falsy):
    the record is the private one. *)
Definition unusable_entries_give_private (drive : string → string → fetch_response)
    (c : GoogleDriveConnector) (d : SlimDocument) (w : world) : Prop :=
  ∀ l w1, resolve_permissions_list drive c d w = (Ok l, w1) →
    Forall (λ p, perm_truthy p = false) l →
    ∃ w2, _get_permissions_from_slim_doc drive c d w = (Ok private_access, w2).

Definition info_skipped_drive : PermSyncData :=
  {| permissions := Some [∅]; permission_ids := None;
     psd_doc_id := Some "d10"; owner_email := None; drive_id := Some "drv" |}.

Definition doc_skipped_drive : SlimDocument :=
  {| slim_id := "d10"; perm_sync_data := Some info_skipped_drive |}.

Definition p_group2 : Permission :=
  <["id" := "p2"]> (<["type" := "group"]> {[ "emailAddress" := "g@x.com" ]}).

Definition drive_two : string → string → fetch_response :=
  λ _ _, Listed [p_user1; p_group2].

Definition info_d11 : PermSyncData :=
  {| permissions := None; permission_ids := Some ["p1"; "p2"];
     psd_doc_id := Some "d11"; owner_email := None; drive_id := None |}.

Definition doc_d11 : SlimDocument :=
  {| slim_id := "d11"; perm_sync_data := Some info_d11 |}.

Definition access_d11 : ExternalAccess :=
  {| external_user_emails := {["u@x.com"]};
     external_user_group_ids := {["g@x.com"]}; is_public := false |}.

Definition world_after_d11 : world :=
  {| cache := <["p2" := p_group2]> {[ "p1" := p_user1 ]};
     trace := [EvFetch "admin@x.com" "d11";
               EvYield {| external_access := access_d11; doc_id := "d11" |}] |}.

(** * Properties *)

(** ** The examples of the specification, run on the model *)

Example spec_example_d1 :
  _get_permissions_from_slim_doc no_drive conn0 (embedded "d1" [p_anyone]) world0
  = (Ok {| external_user_emails := ∅; external_user_group_ids := ∅;
           is_public := true |}, world0).
Proof. vm_compute. reflexivity. Qed.

Example spec_example_d2 :
  _get_permissions_from_slim_doc drive_d2 conn0
    (referenced "d2" ["p1"] (Some "a@x.com") None) world0
  = (Ok {| external_user_emails := {["u@x.com"]}; external_user_group_ids := ∅;
           is_public := false |},
     {| cache := {[ "p1" := p_user1 ]}; trace := [EvFetch "a@x.com" "d2"] |}).
Proof. vm_compute. reflexivity. Qed.

Example spec_example_d3 :
  _get_permissions_from_slim_doc no_drive conn0
    (referenced "d3" ["p9"] None None) world0
  = (Ok private_access,
     {| cache := ∅;
        trace := [EvFetch "admin@x.com" "d3";
                  EvWarning (NoPermissionsFound "d3")] |}).
Proof. vm_compute. reflexivity. Qed.

(** ** Running effects *)

Lemma bind_run {A B} (m : Eff A) (f : A → Eff B) w :
  (m ≫= f) w
  = match m w with
    | (Ok a, w') => f a w'
    | (Raise e, w') => (Raise e, w')
    end.
Proof. reflexivity. Qed.

Lemma log_nil w : log [] w = w.
Proof. destruct w; unfold log; simpl. by rewrite app_nil_r. Qed.

Lemma log_log t1 t2 w : log t2 (log t1 w) = log (t1 ++ t2) w.
Proof. unfold log; simpl. by rewrite app_assoc. Qed.

Lemma emit_run e w : emit e w = (Ok tt, log [e] w).
Proof. reflexivity. Qed.

Lemma fetches_app t1 t2 : fetches (t1 ++ t2) = fetches t1 ++ fetches t2.
Proof. apply omap_app. Qed.

Lemma yielded_app t1 t2 : yielded (t1 ++ t2) = yielded t1 ++ yielded t2.
Proof. apply omap_app. Qed.

Lemma fetches_warnings t :
  Forall (λ e, warning_event e = true) t → fetches t = [].
Proof.
  induction 1 as [|e t He _ IH]; [done|].
  destruct e; try discriminate He. exact IH.
Qed.

Lemma yielded_resolver t :
  Forall (λ e, resolver_event e = true) t → yielded t = [].
Proof.
  induction 1 as [|e t He _ IH]; [done|].
  destruct e; try discriminate He; exact IH.
Qed.

Lemma callback_events_resolver t :
  Forall (λ e, resolver_event e = true) t → callback_events t = [].
Proof.
  induction 1 as [|e t He _ IH]; [done|].
  unfold callback_events in *.
  destruct e; try discriminate He; by rewrite filter_cons_False.
Qed.


(** ** The classification loop *)

(** One entry: the cache is left alone and at most warnings are logged. *)
Lemma classify_permission_logs cd acc p w :
  ∃ out t, classify_permission cd acc p w = (out, log t w)
           ∧ Forall (λ e, warning_event e = true) t.
Proof.
  unfold classify_permission.
  destruct (perm_truthy p); simpl.
  2: { eexists _, []. by rewrite log_nil. }
  destruct (p !! "type") as [ty|].
  2: { eexists _, []. by rewrite log_nil. }
  repeat case_bool_decide; simpl;
    repeat match goal with
           | |- context [match ?o with Some _ => _ | None => _ end] => destruct o
           | |- context [if str_truthy ?c then _ else _] => destruct (str_truthy c)
           end; simpl;
    try (eexists _, []; by rewrite log_nil).
  all: eexists _, [_]; split; [reflexivity|]; by repeat constructor.
Qed.

Lemma classify_loop_logs cd l acc w :
  ∃ out t, classify_loop cd l acc w = (out, log t w)
           ∧ Forall (λ e, warning_event e = true) t.
Proof.
  revert acc w. induction l as [|p l IH]; intros acc w; simpl.
  - eexists _, []. by rewrite log_nil.
  - rewrite bind_run.
    destruct (classify_permission_logs cd acc p w) as (out & t & -> & Ht).
    destruct out as [acc'|e].
    + destruct (IH acc' (log t w)) as (out' & t' & -> & Ht').
      eexists _, (t ++ t'). rewrite log_log. split; [done|]. by apply Forall_app.
    + by eexists _, t.
Qed.

Lemma classify_permissions_logs c d i l w :
  ∃ out t, classify_permissions c d i l w = (out, log t w)
           ∧ Forall (λ e, warning_event e = true) t.
Proof.
  unfold classify_permissions. rewrite bind_run.
  destruct (classify_loop_logs (google_domain c) l tally0 w) as (out & t & -> & Ht).
  destruct out as [acc|e]; [|by eexists _, t].
  rewrite bind_run.
  destruct (0 <? skipped_permissions acc)%nat.
  - unfold warning. rewrite emit_run, log_log.
    eexists _, _. split; [reflexivity|].
    apply Forall_app. split; [done|]. by repeat constructor.
  - by eexists _, t.
Qed.

Lemma access_of_permissions_logs c d i l w :
  ∃ out t, access_of_permissions c d i l w = (out, log t w)
           ∧ Forall (λ e, warning_event e = true) t.
Proof.
  destruct l as [|p l]; simpl.
  - eexists _, [_]. split; [reflexivity|]. by repeat constructor.
  - apply classify_permissions_logs.
Qed.

(** What a completed classification puts in the record. *)
Lemma classify_permissions_record c d i l w r w' :
  classify_permissions c d i l w = (Ok r, w') →
  ∃ acc w1, classify_loop (google_domain c) l tally0 w = (Ok acc, w1)
    ∧ external_user_emails r = user_emails acc
    ∧ external_user_group_ids r
      = group_emails acc ∪ (match drive_id i with Some g => {[g]} | None => ∅ end)
    ∧ is_public r = public acc.
Proof.
  unfold classify_permissions. rewrite bind_run.
  destruct (classify_loop _ l tally0 w) as [[acc|e] w1]; [|discriminate].
  rewrite bind_run.
  destruct (0 <? skipped_permissions acc)%nat; simpl;
    intros [= <- _]; by exists acc, w1.
Qed.

(** ** The permission cache and the fetch *)

Lemma cached_all_length (m : gmap string Permission) (ids : list string) :
  Forall (λ pid, is_Some (m !! pid)) ids →
  length (omap (λ pid, m !! pid) ids) = length ids.
Proof.
  unfold omap.
  induction 1 as [|pid ids [p Hp] _ IH]; [done|].
  simpl. rewrite Hp. simpl. by rewrite IH.
Qed.

Lemma cached_length_le (m : gmap string Permission) (ids : list string) :
  (length (omap (λ pid, m !! pid) ids) ≤ length ids)%nat.
Proof.
  unfold omap.
  induction ids as [|pid ids IH]; [done|].
  simpl. destruct (m !! pid); simpl; lia.
Qed.

Lemma cached_some_missing_length (m : gmap string Permission) (ids : list string) :
  Exists (λ pid, m !! pid = None) ids →
  length (omap (λ pid, m !! pid) ids) ≠ length ids.
Proof.
  pose proof (cached_length_le m) as Hle. unfold omap in *.
  induction 1 as [pid ids Hp|pid ids _ IH]; simpl.
  - rewrite Hp. specialize (Hle ids). lia.
  - destruct (m !! pid); simpl; [lia|].
    specialize (Hle ids). lia.
Qed.

(** The write loop: with an id on every fetched entry it returns the entries
    in order, leaves the trace alone, and the cache ends with, under each id,
    the last fetched entry carrying it. *)
Lemma store_fetched_run fetched acc w :
  Forall (λ p, has_id p = true) fetched →
  ∃ w', store_fetched fetched acc w = (Ok (acc ++ fetched), w')
    ∧ trace w' = trace w
    ∧ ∀ pid, cache w' !! pid
             = match latest_with_id pid fetched with
               | Some q => Some q
               | None => cache w !! pid
               end.
Proof.
  intros Hids. revert acc w.
  induction Hids as [|p rest Hp _ IH]; intros acc w; simpl.
  - exists w. by rewrite app_nil_r.
  - apply bool_decide_eq_true in Hp. destruct Hp as [i Hi]. rewrite Hi.
    rewrite bind_run. simpl.
    destruct (IH (acc ++ [p])
                {| cache := <[i:=p]> (cache w); trace := trace w |})
      as (w' & -> & Ht & Hc).
    exists w'. rewrite <- app_assoc. split; [done|]. split; [done|].
    intros pid. rewrite Hc. simpl.
    destruct (latest_with_id pid rest); [done|].
    case_bool_decide as Hpid.
    + injection Hpid as ->. by rewrite lookup_insert_eq.
    + rewrite lookup_insert_ne; [done|]. by intros ->.
Qed.

Lemma info_truthy_ids i ids : permission_ids i = Some ids → info_truthy i = true.
Proof. destruct i as [[] [] [] [] []]; simpl; done. Qed.

(** The guard of line 47. *)
Lemma fetch_without_doc_id drive c ids i w :
  str_truthy (psd_doc_id i) = false →
  _fetch_permissions_for_permission_ids drive c ids i w = (Ok [], w).
Proof.
  intros H. unfold _fetch_permissions_for_permission_ids.
  rewrite H, orb_true_r. done.
Qed.

(** Lines 50-57: every referenced identifier cached. *)
Lemma fetch_all_cached drive c ids i w :
  permission_ids i = Some ids →
  str_truthy (psd_doc_id i) = true →
  Forall (λ pid, is_Some (cache w !! pid)) ids →
  _fetch_permissions_for_permission_ids drive c ids i w
  = (Ok (omap (λ pid, cache w !! pid) ids), w).
Proof.
  intros Hi Hdoc Hall. unfold _fetch_permissions_for_permission_ids.
  rewrite (info_truthy_ids _ _ Hi), Hdoc. simpl.
  rewrite bind_run. simpl.
  rewrite (cached_all_length _ _ Hall), Nat.eqb_refl. done.
Qed.

(** Lines 59-81: some referenced identifier not cached. *)
Lemma fetch_some_uncached drive c ids i doc w :
  permission_ids i = Some ids →
  psd_doc_id i = Some doc → doc ≠ "" →
  Exists (λ pid, cache w !! pid = None) ids →
  Forall (λ p, has_id p = true)
    (response_entries (drive (acting_identity c i) doc)) →
  ∃ w', _fetch_permissions_for_permission_ids drive c ids i w
        = (Ok (response_entries (drive (acting_identity c i) doc)), w')
    ∧ trace w' = trace w ++ [EvFetch (acting_identity c i) doc]
    ∧ ∀ pid, cache w' !! pid
             = match latest_with_id pid
                       (response_entries (drive (acting_identity c i) doc)) with
               | Some q => Some q
               | None => cache w !! pid
               end.
Proof.
  intros Hi Hdoc Hne Hmiss Hids. unfold _fetch_permissions_for_permission_ids.
  rewrite (info_truthy_ids _ _ Hi), Hdoc. simpl.
  rewrite bool_decide_eq_false_2 by done. simpl.
  rewrite bind_run. simpl.
  apply cached_some_missing_length in Hmiss.
  apply Nat.eqb_neq in Hmiss. rewrite Hmiss.
  rewrite bind_run. unfold execute_paginated_retrieval.
  rewrite bind_run, emit_run. simpl.
  fold (acting_identity c i).
  destruct (store_fetched_run _ [] (log [EvFetch (acting_identity c i) doc] w) Hids)
    as (w' & Hrun & Ht & Hc).
  exists w'. split; [exact Hrun|]. split; [by rewrite Ht|]. exact Hc.
Qed.

(** ** The resolver *)

Lemma resolve_embedded drive c d i p l w :
  perm_sync_data d = Some i → permissions i = Some (p :: l) →
  resolve_permissions_list drive c d w = (Ok (p :: l), w).
Proof.
  intros Hd Hp. unfold resolve_permissions_list. by rewrite Hd; simpl; rewrite Hp.
Qed.

Lemma resolve_referenced drive c d i ids w :
  perm_sync_data d = Some i → list_truthy (permissions i) = false →
  permission_ids i = Some ids → ids ≠ [] →
  resolve_permissions_list drive c d w
  = _fetch_permissions_for_permission_ids drive c ids i w.
Proof.
  intros Hd Hp Hi Hne. unfold resolve_permissions_list.
  rewrite Hd; simpl.
  destruct (permissions i) as [[|p l]|]; try discriminate Hp; simpl;
    rewrite Hi; destruct ids; done.
Qed.

Lemma resolve_no_references drive c d i w :
  perm_sync_data d = Some i → list_truthy (permissions i) = false →
  list_truthy (permission_ids i) = false →
  resolve_permissions_list drive c d w = (Ok [], w).
Proof.
  intros Hd Hp Hi. unfold resolve_permissions_list.
  rewrite Hd; simpl.
  destruct (permissions i) as [[|p l]|]; try discriminate Hp; simpl;
    by rewrite Hi.
Qed.

Lemma resolver_run drive c d w :
  _get_permissions_from_slim_doc drive c d w
  = match resolve_permissions_list drive c d w with
    | (Ok l, w1) => access_of_permissions c d (info_of d) l w1
    | (Raise e, w1) => (Raise e, w1)
    end.
Proof. reflexivity. Qed.

(** A fetch answered by not-found or forbidden leaves the resolver with no
    entries. *)
Lemma refused_fetch_resolves_to_nothing drive c d i ids doc w :
  perm_sync_data d = Some i → list_truthy (permissions i) = false →
  permission_ids i = Some ids →
  psd_doc_id i = Some doc → doc ≠ "" →
  Exists (λ pid, cache w !! pid = None) ids →
  drive (acting_identity c i) doc = NotFound
  ∨ drive (acting_identity c i) doc = Forbidden →
  ∃ w1, resolve_permissions_list drive c d w = (Ok [], w1)
        ∧ trace w1 = trace w ++ [EvFetch (acting_identity c i) doc].
Proof.
  intros Hd Hp Hi Hdoc Hne Hmiss Hrefused.
  assert (ids ≠ []) as Hids by (intros ->; by apply Exists_nil in Hmiss).
  rewrite (resolve_referenced _ _ _ _ _ _ Hd Hp Hi Hids).
  destruct (fetch_some_uncached drive c ids i doc w Hi Hdoc Hne Hmiss)
    as (w1 & Hrun & Ht & _).
  { destruct Hrefused as [-> | ->]; constructor. }
  exists w1. split; [|done].
  rewrite Hrun. by destruct Hrefused as [-> | ->].
Qed.

(** C1 (as amended).  For a descriptor that carries a parent-collection
    identifier [drive_id] and for which the resolver returns a record, the
    identifier is in the record's group-identifier set exactly when the
    resolved permission list is non-empty; on the conservative-fallback path
    (empty list) it is left out. *)
Theorem drive_id_in_groups_iff_permissions drive c d w g l w1 r w2 :
  drive_id (info_of d) = Some g →
  resolve_permissions_list drive c d w = (Ok l, w1) →
  _get_permissions_from_slim_doc drive c d w = (Ok r, w2) →
  g ∈ external_user_group_ids r ↔ l ≠ [].
Proof.
  intros Hg Hl. rewrite resolver_run, Hl.
  destruct l as [|p l]; simpl.
  - intros [= <- _]. simpl. set_solver.
  - intros Hr.
    destruct (classify_permissions_record _ _ _ _ _ _ _ Hr)
      as (acc & ? & _ & _ & Hgroups & _).
    rewrite Hgroups, Hg. split; [done|]. intros _.
    apply elem_of_union_r. by apply elem_of_singleton.
Qed.

(** C8 (as amended).  When resolution ends with an empty permission list
    (nothing embedded and nothing obtained for the references), the resolver
    logs the "No permissions found" warning and returns the private record:
    no user emails, no group identifiers, not public. *)
Theorem no_permissions_private_record drive c d w w1 :
  resolve_permissions_list drive c d w = (Ok [], w1) →
  _get_permissions_from_slim_doc drive c d w
  = (Ok {| external_user_emails := ∅; external_user_group_ids := ∅;
           is_public := false |},
     log [EvWarning (NoPermissionsFound (slim_id d))] w1).
Proof. intros Hl. by rewrite resolver_run, Hl. Qed.


Lemma store_fetched_trace fetched acc w :
  trace (store_fetched fetched acc w).2 = trace w.
Proof.
  revert acc w. induction fetched as [|p rest IH]; intros acc w; simpl; [done|].
  destruct (p !! "id") as [pid|]; [|done].
  rewrite bind_run. simpl. by rewrite IH.
Qed.

(** The trace of the fetch when some referenced identifier is not cached,
    whether or not the write loop gets through. *)
Lemma fetch_some_uncached_trace drive c ids i doc w :
  permission_ids i = Some ids →
  psd_doc_id i = Some doc → doc ≠ "" →
  Exists (λ pid, cache w !! pid = None) ids →
  trace (_fetch_permissions_for_permission_ids drive c ids i w).2
  = trace w ++ [EvFetch (acting_identity c i) doc].
Proof.
  intros Hi Hdoc Hne Hmiss. unfold _fetch_permissions_for_permission_ids.
  rewrite (info_truthy_ids _ _ Hi), Hdoc. simpl.
  rewrite bool_decide_eq_false_2 by done. simpl.
  rewrite bind_run. simpl.
  apply cached_some_missing_length in Hmiss.
  apply Nat.eqb_neq in Hmiss. rewrite Hmiss.
  rewrite bind_run. unfold execute_paginated_retrieval.
  rewrite bind_run, emit_run. simpl.
  by rewrite store_fetched_trace.
Qed.

(** C5 (as amended).  For a descriptor without embedded entries that carries
    a non-empty document identifier and references at least one identifier
    missing from the cache, exactly one fetch is issued for the document,
    under the owner's email or else the primary admin's; and when every
    fetched entry carries an [id], the fetched entries are the resolved list
    and the cache then holds, under each fetched id, the last fetched entry
    with that id, whatever it held before, and is unchanged elsewhere. *)
Theorem uncached_id_single_fetch drive c d i ids doc w :
  perm_sync_data d = Some i → list_truthy (permissions i) = false →
  permission_ids i = Some ids →
  psd_doc_id i = Some doc → doc ≠ "" →
  Exists (λ pid, cache w !! pid = None) ids →
  (∀ out w', _get_permissions_from_slim_doc drive c d w = (out, w') →
     fetches (trace w') = fetches (trace w) ++ [(acting_identity c i, doc)])
  ∧ (Forall (λ p, has_id p = true)
       (response_entries (drive (acting_identity c i) doc)) →
     ∃ w1,
       resolve_permissions_list drive c d w
       = (Ok (response_entries (drive (acting_identity c i) doc)), w1)
       ∧ (∀ pid, cache w1 !! pid
                 = match latest_with_id pid
                           (response_entries
                              (drive (acting_identity c i) doc)) with
                   | Some q => Some q
                   | None => cache w !! pid
                   end)
       ∧ ∀ out w', _get_permissions_from_slim_doc drive c d w = (out, w') →
           cache w' = cache w1).
Proof.
  intros Hd Hp Hi Hdoc Hne Hmiss.
  assert (ids ≠ []) as Hnil by (intros ->; by apply Exists_nil in Hmiss).
  pose proof (resolve_referenced drive c _ _ _ w Hd Hp Hi Hnil) as Hres.
  split.
  - intros out w'. rewrite resolver_run, Hres.
    pose proof (fetch_some_uncached_trace drive c ids i doc w Hi Hdoc Hne Hmiss)
      as Ht.
    destruct (_fetch_permissions_for_permission_ids drive c ids i w)
      as [[l|e] w1]; simpl in Ht.
    + destruct (access_of_permissions_logs c d (info_of d) l w1)
        as (out' & t & -> & Hw).
      intros [= _ <-]. simpl.
      rewrite Ht, !fetches_app, (fetches_warnings _ Hw). simpl.
      by rewrite app_nil_r.
    + intros [= _ <-]. rewrite Ht, fetches_app. done.
  - intros Hids.
    destruct (fetch_some_uncached drive c ids i doc w Hi Hdoc Hne Hmiss Hids)
      as (w1 & Hrun & _ & Hc).
    rewrite <- Hres in Hrun.
    exists w1. split; [exact Hrun|]. split; [exact Hc|].
    intros out w'. rewrite resolver_run, Hrun.
    destruct (access_of_permissions_logs c d (info_of d)
                (response_entries (drive (acting_identity c i) doc)) w1)
      as (out' & t & -> & _).
    by intros [= _ <-].
Qed.

(** ** Domain entries *)

Lemma typed_permission_truthy (p : Permission) ty :
  p !! "type" = Some ty → perm_truthy p = true.
Proof.
  intros Hty. unfold perm_truthy. rewrite bool_decide_eq_false_2; [done|].
  intros ->. by rewrite lookup_empty in Hty.
Qed.

(** C6 (as amended).  A permission entry of kind domain marks the record
    public exactly when a domain is configured for the connection and the
    entry's domain equals it; when a domain is configured and the entry's
    differs or is missing, the entry changes nothing and a warning is logged;
    when no domain is configured, the entry changes nothing and nothing is
    logged. *)
Theorem domain_entry_classification cd acc p w :
  p !! "type" = Some "domain" →
  classify_permission cd acc p w
  = if str_truthy cd then
      if bool_decide (p !! "domain" = cd) then (Ok (set_public acc), w)
      else (Ok acc, log [EvWarning (DomainMismatch p)] w)
    else (Ok acc, w).
Proof.
  intros Hty. unfold classify_permission.
  rewrite (typed_permission_truthy _ _ Hty), Hty. simpl.
  destruct (str_truthy cd); simpl; [|done].
  by case_bool_decide.
Qed.

(** ** Well-formed entries never raise *)

Lemma classify_permission_ok cd acc p w :
  classifiable p = true →
  ∃ acc' t, classify_permission cd acc p w = (Ok acc', log t w).
Proof.
  unfold classifiable, classify_permission.
  destruct (perm_truthy p); simpl.
  2: { intros _. eexists _, []. by rewrite log_nil. }
  destruct (p !! "type") as [ty|]; [|discriminate].
  destruct (bool_decide (ty = "user")); simpl.
  { intros [e ->]%bool_decide_eq_true. eexists _, []. by rewrite log_nil. }
  destruct (bool_decide (ty = "group")); simpl.
  { intros [e ->]%bool_decide_eq_true. eexists _, []. by rewrite log_nil. }
  intros _.
  destruct (bool_decide (ty = "domain") && str_truthy cd).
  { case_bool_decide; [eexists _, []; by rewrite log_nil|by eexists _, [_]]. }
  destruct (bool_decide (ty = "anyone")); eexists _, []; by rewrite log_nil.
Qed.

Lemma classify_loop_ok cd l acc w :
  Forall (λ p, classifiable p = true) l →
  ∃ acc' t, classify_loop cd l acc w = (Ok acc', log t w).
Proof.
  intros Hl. revert acc w.
  induction Hl as [|p l Hp _ IH]; intros acc w; simpl.
  - eexists _, []. by rewrite log_nil.
  - rewrite bind_run.
    destruct (classify_permission_ok cd acc p w Hp) as (acc' & t & ->).
    destruct (IH acc' (log t w)) as (acc'' & t' & ->).
    eexists _, _. by rewrite log_log.
Qed.

Lemma access_of_permissions_ok c d i l w :
  Forall (λ p, classifiable p = true) l →
  ∃ r t, access_of_permissions c d i l w = (Ok r, log t w).
Proof.
  intros Hl. destruct l as [|p l]; simpl.
  - by eexists _, [_].
  - unfold classify_permissions. rewrite bind_run.
    destruct (classify_loop_ok (google_domain c) (p :: l) tally0 w Hl)
      as (acc & t & ->).
    rewrite bind_run.
    destruct (0 <? skipped_permissions acc)%nat; simpl.
    + eexists _, (t ++ [_]). rewrite <- log_log. reflexivity.
    + by eexists _, _.
Qed.

Lemma latest_with_id_elem pid l q :
  latest_with_id pid l = Some q → q ∈ l.
Proof.
  induction l as [|p l IH]; simpl; [discriminate|].
  destruct (latest_with_id pid l) as [q'|].
  - intros [= <-]. right. by apply IH.
  - case_bool_decide; [|discriminate]. intros [= <-]. left.
Qed.

Lemma cached_entries_classifiable w ids :
  cache_classifiable w →
  Forall (λ p, classifiable p = true) (omap (λ pid, cache w !! pid) ids).
Proof.
  intros Hw. apply Forall_forall. intros p Hp.
  apply list_elem_of_omap in Hp as (pid & _ & Hpid).
  exact (Hw pid p Hpid).
Qed.

(** The fetch on well-formed data: it returns classifiable entries, keeps
    the cache classifiable and logs at most the fetch itself. *)
Lemma fetch_ok drive c ids i w :
  drive_well_formed drive → cache_classifiable w →
  ∃ l w1, _fetch_permissions_for_permission_ids drive c ids i w = (Ok l, w1)
    ∧ Forall (λ p, classifiable p = true) l
    ∧ cache_classifiable w1.
Proof.
  intros Hdrive Hw. unfold _fetch_permissions_for_permission_ids.
  destruct (negb (info_truthy i) || negb (str_truthy (psd_doc_id i))).
  { by exists [], w. }
  rewrite bind_run. simpl.
  destruct (length (omap (λ pid, cache w !! pid) ids) =? length ids)%nat.
  { eexists _, w. split; [done|]. split; [|done].
    by apply cached_entries_classifiable. }
  rewrite bind_run. unfold execute_paginated_retrieval.
  rewrite bind_run, emit_run. simpl.
  set (user := if str_truthy (owner_email i) then _ else _).
  set (file := default "" (psd_doc_id i)).
  pose proof (Hdrive user file) as Hresp.
  destruct (store_fetched_run (response_entries (drive user file)) []
              (log [EvFetch user file] w)) as (w1 & -> & _ & Hc).
  { eapply Forall_impl; [exact Hresp|]. by intros p [? _]. }
  exists (response_entries (drive user file)), w1.
  split; [done|]. split.
  { eapply Forall_impl; [exact Hresp|]. by intros p [_ ?]. }
  intros pid p. rewrite Hc.
  destruct (latest_with_id pid _) as [q|] eqn:Hq.
  - intros [= <-]. apply latest_with_id_elem in Hq.
    rewrite Forall_forall in Hresp. by apply Hresp.
  - apply Hw.
Qed.

Lemma resolve_ok drive c d w :
  drive_well_formed drive → cache_classifiable w →
  Forall (λ p, classifiable p = true) (embedded_entries d) →
  ∃ l w1, resolve_permissions_list drive c d w = (Ok l, w1)
    ∧ Forall (λ p, classifiable p = true) l
    ∧ cache_classifiable w1.
Proof.
  intros Hdrive Hw Hemb. unfold resolve_permissions_list.
  fold (info_of d). change (default [] (permissions (info_of d)))
    with (embedded_entries d).
  destruct (embedded_entries d) as [|p l] eqn:He.
  - destruct (list_truthy (permission_ids (info_of d))).
    + by apply fetch_ok.
    + by exists [], w.
  - by exists (p :: l), w.
Qed.

Lemma resolver_ok drive c d w :
  drive_well_formed drive → cache_classifiable w →
  Forall (λ p, classifiable p = true) (embedded_entries d) →
  ∃ r w', _get_permissions_from_slim_doc drive c d w = (Ok r, w')
          ∧ cache_classifiable w'.
Proof.
  intros Hdrive Hw Hemb. rewrite resolver_run.
  destruct (resolve_ok drive c d w Hdrive Hw Hemb) as (l & w1 & -> & Hl & Hw1).
  destruct (access_of_permissions_ok c d (info_of d) l w1 Hl) as (r & t & ->).
  by exists r, (log t w1).
Qed.

(** C2 (as amended).  When every permission entry in play (embedded in the
    descriptor, held in the cache, or returned by the Drive service) is empty
    or carries a [type], with an [emailAddress] when the type is user or
    group, and every entry the service returns carries an [id], the resolver
    returns an access record and raises nothing. *)
Theorem resolver_returns_on_well_formed drive c d w :
  drive_well_formed drive → cache_classifiable w →
  Forall (λ p, classifiable p = true) (embedded_entries d) →
  ∃ r w', _get_permissions_from_slim_doc drive c d w = (Ok r, w').
Proof.
  intros Hdrive Hw Hemb.
  destruct (resolver_ok drive c d w Hdrive Hw Hemb) as (r & w' & Hrun & _).
  by exists r, w'.
Qed.

(** ** What the resolver can do to the trace *)

Lemma resolver_step_ret {A} (a : A) : resolver_step (mret a).
Proof. intros w. exists (Ok a), w, []. by rewrite app_nil_r. Qed.

Lemma resolver_step_key_error {A} k : resolver_step (@raise A (KeyError k)).
Proof. intros w. exists (Raise (KeyError k)), w, []. by rewrite app_nil_r. Qed.

Lemma resolver_step_emit e : resolver_event e = true → resolver_step (emit e).
Proof.
  intros He w. exists (Ok tt), (log [e] w), [e].
  split; [done|]. split; [done|]. split; [|done]. by repeat constructor.
Qed.

Lemma resolver_step_bind {A B} (m : Eff A) (f : A → Eff B) :
  resolver_step m → (∀ a, resolver_step (f a)) → resolver_step (m ≫= f).
Proof.
  intros Hm Hf w. rewrite bind_run.
  destruct (Hm w) as (out & w1 & t & -> & Ht & Hev & Hout).
  destruct out as [a|e].
  - destruct (Hf a w1) as (out' & w2 & t' & -> & Ht' & Hev' & Hout').
    exists out', w2, (t ++ t'). split; [done|].
    split; [by rewrite Ht', Ht, app_assoc|]. split; [by apply Forall_app|done].
  - by exists (Raise e), w1, t.
Qed.

Lemma resolver_step_cache_store pid p : resolver_step (cache_store pid p).
Proof.
  intros w. eexists (Ok tt), _, []. split; [reflexivity|].
  simpl. by rewrite app_nil_r.
Qed.

Lemma resolver_step_read_cache : resolver_step read_cache.
Proof. intros w. exists (Ok (cache w)), w, []. by rewrite app_nil_r. Qed.

Lemma store_fetched_step fetched acc : resolver_step (store_fetched fetched acc).
Proof.
  revert acc. induction fetched as [|p rest IH]; intros acc; simpl.
  - apply resolver_step_ret.
  - destruct (p !! "id") as [pid|]; [|apply resolver_step_key_error].
    apply resolver_step_bind; [apply resolver_step_cache_store|].
    intros _. apply IH.
Qed.

Lemma fetch_step drive c ids i :
  resolver_step (_fetch_permissions_for_permission_ids drive c ids i).
Proof.
  unfold _fetch_permissions_for_permission_ids.
  destruct (_ || _); [apply resolver_step_ret|].
  apply resolver_step_bind; [apply resolver_step_read_cache|]. intros m.
  destruct (_ =? _)%nat; [apply resolver_step_ret|].
  apply resolver_step_bind; [|intros fetched; apply store_fetched_step].
  apply resolver_step_bind; [by apply resolver_step_emit|].
  intros _. apply resolver_step_ret.
Qed.

Lemma classify_permission_step cd acc p :
  resolver_step (classify_permission cd acc p).
Proof.
  unfold classify_permission.
  destruct (negb _); [apply resolver_step_ret|].
  destruct (p !! "type") as [ty|]; [|apply resolver_step_key_error].
  repeat match goal with
         | |- resolver_step (if ?b then _ else _) => destruct b
         | |- resolver_step (match ?o with Some _ => _ | None => _ end) =>
             destruct o
         end;
    try apply resolver_step_ret; try apply resolver_step_key_error.
  apply resolver_step_bind; [by apply resolver_step_emit|].
  intros _. apply resolver_step_ret.
Qed.

Lemma classify_loop_step cd l acc : resolver_step (classify_loop cd l acc).
Proof.
  revert acc. induction l as [|p l IH]; intros acc; simpl.
  - apply resolver_step_ret.
  - apply resolver_step_bind; [apply classify_permission_step|apply IH].
Qed.

Lemma access_of_permissions_step c d i l :
  resolver_step (access_of_permissions c d i l).
Proof.
  destruct l as [|p l]; simpl.
  - apply resolver_step_bind; [by apply resolver_step_emit|].
    intros _. apply resolver_step_ret.
  - unfold classify_permissions.
    apply resolver_step_bind; [apply classify_loop_step|]. intros acc.
    apply resolver_step_bind; [|intros _; apply resolver_step_ret].
    destruct (_ <? _)%nat; [by apply resolver_step_emit|apply resolver_step_ret].
Qed.

Lemma resolver_is_step drive c d :
  resolver_step (_get_permissions_from_slim_doc drive c d).
Proof.
  unfold _get_permissions_from_slim_doc.
  apply resolver_step_bind; [|intros l; apply access_of_permissions_step].
  unfold resolve_permissions_list.
  destruct (default [] _); [|apply resolver_step_ret].
  destruct (list_truthy _); [apply fetch_step|apply resolver_step_ret].
Qed.

(** ** The orchestrator *)


Lemma for_each_app {A} (body : A → Eff unit) l1 l2 w :
  for_each body (l1 ++ l2) w
  = match for_each body l1 w with
    | (Ok _, w1) => for_each body l2 w1
    | (Raise e, w1) => (Raise e, w1)
    end.
Proof.
  revert w. induction l1 as [|x l1 IH]; intros w; simpl; [done|].
  rewrite !bind_run. destruct (body x w) as [[[]|e] w1]; [apply IH|done].
Qed.

Lemma for_each_concat {A} (body : A → Eff unit) (ls : list (list A)) w :
  for_each (for_each body) ls w = for_each body (concat ls) w.
Proof.
  revert w. induction ls as [|l ls IH]; intros w; simpl; [done|].
  rewrite bind_run, for_each_app.
  destruct (for_each body l w) as [[[]|e] w1]; [apply IH|done].
Qed.

Lemma gdrive_doc_sync_run drive now cc_pair callback w :
  gdrive_doc_sync drive now cc_pair callback w
  = for_each (sync_slim_doc drive callback (connector cc_pair))
      (concat (_get_slim_doc_generator now cc_pair (connector cc_pair))) w.
Proof. unfold gdrive_doc_sync. apply for_each_concat. Qed.

(** The stop signal at the check of a document. *)
Lemma sync_slim_doc_stop drive cb c d w :
  should_stop cb (trace w) = true →
  sync_slim_doc drive (Some cb) c d w
  = (Raise (RuntimeError stop_message), log [EvShouldStop true] w).
Proof.
  intros Hstop. unfold sync_slim_doc, poll.
  rewrite !bind_run. simpl. rewrite Hstop. done.
Qed.

Lemma sync_slim_doc_continue drive cb c d w :
  should_stop cb (trace w) = false →
  sync_slim_doc drive (Some cb) c d w
  = match _get_permissions_from_slim_doc drive c d
            (log [EvShouldStop false; EvProgress "gdrive_doc_sync" 1] w) with
    | (Ok ext, w1) =>
        (Ok tt, log [EvYield {| external_access := ext;
                                doc_id := slim_id d |}] w1)
    | (Raise e, w1) => (Raise e, w1)
    end.
Proof.
  intros Hstop. unfold sync_slim_doc, poll.
  rewrite !bind_run. simpl. rewrite Hstop. simpl.
  rewrite bind_run. unfold log. simpl. rewrite <- app_assoc. simpl.
  by destruct (_get_permissions_from_slim_doc _ _ _ _) as [[ext|e] w1].
Qed.

Lemma sync_slim_doc_no_callback drive c d w :
  sync_slim_doc drive None c d w
  = match _get_permissions_from_slim_doc drive c d w with
    | (Ok ext, w1) =>
        (Ok tt, log [EvYield {| external_access := ext;
                                doc_id := slim_id d |}] w1)
    | (Raise e, w1) => (Raise e, w1)
    end.
Proof.
  unfold sync_slim_doc. rewrite bind_run. simpl. rewrite bind_run.
  by destruct (_get_permissions_from_slim_doc _ _ _ _) as [[ext|e] w1].
Qed.

(** C4 (as amended).  For a document processed with a callback that does
    not ask to stop, the unit of progress is recorded right after the
    cancellation check, before the document is resolved: the resolver starts
    from a trace that already ends in the progress record, adds only fetches
    and warnings, and the record is handed to the caller last. *)
Theorem progress_recorded_before_resolution drive cb c d w :
  should_stop cb (trace w) = false →
  ∃ res w1 t,
    _get_permissions_from_slim_doc drive c d
      (log [EvShouldStop false; EvProgress "gdrive_doc_sync" 1] w) = (res, w1)
    ∧ trace w1
      = trace w ++ [EvShouldStop false; EvProgress "gdrive_doc_sync" 1] ++ t
    ∧ Forall (λ e, resolver_event e = true) t
    ∧ sync_slim_doc drive (Some cb) c d w
      = match res with
        | Ok ext =>
            (Ok tt, log [EvYield {| external_access := ext;
                                    doc_id := slim_id d |}] w1)
        | Raise e => (Raise e, w1)
        end.
Proof.
  intros Hstop. rewrite (sync_slim_doc_continue _ _ _ _ _ Hstop).
  destruct (resolver_is_step drive c d
              (log [EvShouldStop false; EvProgress "gdrive_doc_sync" 1] w))
    as (res & w1 & t & -> & Ht & Hev & _).
  exists res, w1, t. split; [done|]. split; [|done].
  rewrite Ht. simpl. by rewrite <- app_assoc.
Qed.

(** C7.  When the stop signal reads true at the check of a document, after
    the documents before it have been processed, the run ends with the
    "stop signal detected" error; the document is not resolved (cache and
    fetches as they were), no record is emitted for it, and the records
    emitted before stay in the trace. *)
Theorem cancellation_stops_before_resolution drive now cc_pair cb
    before batch_pre d batch_post after w w1 :
  _get_slim_doc_generator now cc_pair (connector cc_pair)
  = before ++ (batch_pre ++ d :: batch_post) :: after →
  for_each (for_each (sync_slim_doc drive (Some cb) (connector cc_pair)))
    (before ++ [batch_pre]) w = (Ok tt, w1) →
  should_stop cb (trace w1) = true →
  gdrive_doc_sync drive now cc_pair (Some cb) w
  = (Raise (RuntimeError stop_message), log [EvShouldStop true] w1)
  ∧ yielded (trace (log [EvShouldStop true] w1)) = yielded (trace w1)
  ∧ fetches (trace (log [EvShouldStop true] w1)) = fetches (trace w1).
Proof.
  intros Hstream Hbefore Hstop. split.
  - unfold gdrive_doc_sync. cbv zeta. rewrite Hstream.
    rewrite for_each_app in Hbefore |- *.
    destruct (for_each _ before w) as [[[]|e] wa]; [|discriminate].
    simpl in Hbefore |- *. rewrite bind_run in Hbefore |- *.
    rewrite for_each_app.
    destruct (for_each _ batch_pre wa) as [[[]|e] wb]; [|discriminate].
    injection Hbefore as ->. simpl.
    by rewrite bind_run, (sync_slim_doc_stop _ _ _ _ _ Hstop).
  - simpl. rewrite yielded_app, fetches_app. simpl. by rewrite !app_nil_r.
Qed.

Lemma callback_events_app t1 t2 :
  callback_events (t1 ++ t2) = callback_events t1 ++ callback_events t2.
Proof. apply filter_app. Qed.




(** ** Where the code departs from the specification *)

(** C1, counterexample.  A descriptor with a parent-collection identifier and
    no permissions: the early return of line 100 gives an empty group set. *)
Lemma drive_id_dropped_on_fallback :
  ¬ drive_id_always_in_groups no_drive conn0 doc_drive_only world0.
Proof.
  intros H. destruct (H "drv" eq_refl) as (r & w' & Hrun & Hin).
  vm_compute in Hrun. injection Hrun as <- _.
  by apply not_elem_of_empty in Hin.
Qed.

(** C2, counterexample.  An embedded entry that is a non-empty dict without
    [type]: line 117 raises [KeyError]. *)
Lemma resolver_raises_on_untyped_entry :
  ¬ resolver_never_raises no_drive conn0 doc_bad world0.
Proof. intros (r & w' & Hrun). vm_compute in Hrun. discriminate. Qed.

(** C3, counterexample.  The only referenced identifier is cached as an
    anyone-permission, but the descriptor has no document id: line 47
    returns no entries and the record is the private one, not the public one
    the cached entry classifies to. *)
Lemma cached_ids_ignored_without_doc_id :
  ¬ cached_ids_are_classified no_drive conn0 doc_no_doc_id world_cached.
Proof.
  intros H.
  destruct (H ["p1"] eq_refl eq_refl) as (r & w' & Hrun & _ & w'' & Hcls).
  { repeat constructor. by eexists. }
  vm_compute in Hrun. injection Hrun as <- _.
  vm_compute in Hcls. discriminate.
Qed.

(** C4, counterexample.  One document, a callback that never stops: the
    progress record is second in the trace and the emitted record last. *)
Lemma progress_precedes_emit :
  ¬ progress_after_emit
      (trace (sync_slim_doc no_drive (Some never_stop) conn0 doc_d1 world0).2).
Proof.
  intros H.
  assert (trace (sync_slim_doc no_drive (Some never_stop) conn0 doc_d1 world0).2
          = trace world_after_d1) as Ht by (vm_compute; reflexivity).
  rewrite Ht in H.
  specialize (H 2 1 _ _ _ eq_refl eq_refl). lia.
Qed.

(** C5, counterexample.  The referenced identifier is not cached, but the
    descriptor has no document id: no fetch is issued at all. *)
Lemma no_fetch_without_doc_id :
  ¬ uncached_id_fetches_once no_drive conn0 doc_no_doc_id world0.
Proof.
  intros H.
  destruct (_get_permissions_from_slim_doc no_drive conn0 doc_no_doc_id world0)
    as [out w'] eqn:Hrun.
  specialize (H ["p1"] eq_refl eq_refl).
  assert (Exists (λ pid, cache world0 !! pid = None) ["p1"]) as Hmiss
    by (by left).
  specialize (H Hmiss out w' Hrun).
  vm_compute in Hrun. injection Hrun as <- <-.
  vm_compute in H. discriminate.
Qed.

(** C6, counterexample.  A domain entry on a connection with no domain
    configured: nothing is logged. *)
Lemma unconfigured_domain_not_diagnosed :
  ¬ domain_entry_public_or_diagnosed None tally0 p_domain world0.
Proof.
  intros H. specialize (H eq_refl). vm_compute in H. discriminate.
Qed.


(** ** The theorems at concrete inputs *)

Lemma drive_d2_well_formed : drive_well_formed drive_d2.
Proof.
  intros u f. unfold drive_d2. case_bool_decide; simpl; [|constructor].
  repeat constructor.
Qed.

Lemma drive_id_in_groups_iff_permissions_witness :
  "drv" ∈ external_user_group_ids access_d2 ↔ [p_user1] ≠ [].
Proof.
  apply (drive_id_in_groups_iff_permissions drive_d2 conn0 doc_d2 world0
           "drv" [p_user1] world_d2 access_d2 world_d2);
    vm_compute; reflexivity.
Defined.

Lemma resolver_returns_on_well_formed_witness :
  ∃ r w', _get_permissions_from_slim_doc drive_d2 conn0 doc_d2 world0
          = (Ok r, w').
Proof.
  apply (resolver_returns_on_well_formed drive_d2 conn0 doc_d2 world0).
  - exact drive_d2_well_formed.
  - apply map_Forall_empty.
  - constructor.
Defined.


Lemma progress_recorded_before_resolution_witness :
  ∃ res w1 t,
    _get_permissions_from_slim_doc no_drive conn0 doc_d1
      (log [EvShouldStop false; EvProgress "gdrive_doc_sync" 1] world0)
    = (res, w1)
    ∧ trace w1
      = trace world0 ++ [EvShouldStop false; EvProgress "gdrive_doc_sync" 1] ++ t
    ∧ Forall (λ e, resolver_event e = true) t
    ∧ sync_slim_doc no_drive (Some never_stop) conn0 doc_d1 world0
      = match res with
        | Ok ext =>
            (Ok tt, log [EvYield {| external_access := ext;
                                    doc_id := slim_id doc_d1 |}] w1)
        | Raise e => (Raise e, w1)
        end.
Proof.
  apply (progress_recorded_before_resolution no_drive never_stop conn0 doc_d1
           world0).
  reflexivity.
Defined.

Lemma uncached_id_single_fetch_witness :
  (∀ out w', _get_permissions_from_slim_doc drive_d2 conn0 doc_d2 world0
             = (out, w') →
     fetches (trace w')
     = fetches (trace world0) ++ [(acting_identity conn0 info_d2, "d2")])
  ∧ (Forall (λ p, has_id p = true)
       (response_entries (drive_d2 (acting_identity conn0 info_d2) "d2")) →
     ∃ w1,
       resolve_permissions_list drive_d2 conn0 doc_d2 world0
       = (Ok (response_entries (drive_d2 (acting_identity conn0 info_d2) "d2")),
          w1)
       ∧ (∀ pid, cache w1 !! pid
                 = match latest_with_id pid
                           (response_entries
                              (drive_d2 (acting_identity conn0 info_d2) "d2")) with
                   | Some q => Some q
                   | None => cache world0 !! pid
                   end)
       ∧ ∀ out w', _get_permissions_from_slim_doc drive_d2 conn0 doc_d2 world0
                   = (out, w') →
           cache w' = cache w1).
Proof.
  apply (uncached_id_single_fetch drive_d2 conn0 doc_d2 info_d2 ["p1"] "d2"
           world0); try reflexivity.
  - discriminate.
  - left. vm_compute. reflexivity.
Defined.

Lemma domain_entry_classification_witness :
  classify_permission (Some "x.com") tally0 p_domain world0
  = if str_truthy (Some "x.com") then
      if bool_decide (p_domain !! "domain" = Some "x.com")
      then (Ok (set_public tally0), world0)
      else (Ok tally0, log [EvWarning (DomainMismatch p_domain)] world0)
    else (Ok tally0, world0).
Proof.
  apply (domain_entry_classification (Some "x.com") tally0 p_domain world0).
  vm_compute. reflexivity.
Defined.

Lemma cancellation_stops_before_resolution_witness :
  gdrive_doc_sync no_drive 0 (cc_of [[doc_d1; doc_d3]]) (Some (stop_after 1))
    world0
  = (Raise (RuntimeError stop_message), log [EvShouldStop true] world_after_d1)
  ∧ yielded (trace (log [EvShouldStop true] world_after_d1))
    = yielded (trace world_after_d1)
  ∧ fetches (trace (log [EvShouldStop true] world_after_d1))
    = fetches (trace world_after_d1).
Proof.
  apply (cancellation_stops_before_resolution no_drive 0
           (cc_of [[doc_d1; doc_d3]]) (stop_after 1)
           [] [doc_d1] doc_d3 [] [] world0 world_after_d1);
    vm_compute; reflexivity.
Defined.

Lemma no_permissions_private_record_witness :
  _get_permissions_from_slim_doc no_drive conn0 doc_d3 world0
  = (Ok {| external_user_emails := ∅; external_user_group_ids := ∅;
           is_public := false |},
     log [EvWarning (NoPermissionsFound (slim_id doc_d3))] world_fetch_d3).
Proof.
  apply (no_permissions_private_record no_drive conn0 doc_d3 world0
           world_fetch_d3).
  vm_compute. reflexivity.
Defined.



(** * Further properties of the module *)

(** ** The classification loop, read declaratively *)

Lemma classify_permission_effect cd acc p w :
  classifiable p = true →
  classify_permission cd acc p w
  = (Ok (tally_add cd acc p), log (mismatch_warnings cd [p]) w).
Proof.
  unfold classifiable, classify_permission, tally_add, entry_emails,
    grants_public, mismatch_warnings, mismatch_warning.
  destruct acc as [us gs pub sk]. simpl.
  destruct (perm_truthy p) eqn:Htruthy; simpl.
  2: { intros _.
       assert (p = ∅) as ->.
       { unfold perm_truthy in Htruthy. apply negb_false_iff in Htruthy.
         by apply bool_decide_eq_true in Htruthy. }
       rewrite !lookup_empty. simpl. rewrite log_nil, ?Nat.add_1_r. by rewrite !(right_id_L ∅ (∪)), orb_false_r. }
  destruct (p !! "type") as [ty|]; [|discriminate].
  rewrite Nat.add_0_r.
  destruct (bool_decide (ty = "user")) eqn:Huser.
  { apply bool_decide_eq_true in Huser as ->. simpl.
    intros [e He]%bool_decide_eq_true. rewrite He. simpl.
    by rewrite log_nil, !(right_id_L ∅ (∪)), orb_false_r. }
  destruct (bool_decide (ty = "group")) eqn:Hgroup.
  { apply bool_decide_eq_true in Hgroup as ->. simpl.
    intros [e He]%bool_decide_eq_true. rewrite He. simpl.
    by rewrite log_nil, !(right_id_L ∅ (∪)), orb_false_r. }
  simpl. intros _.
  assert (us ∪ match p !! "emailAddress" with
               | Some _ => ∅ | None => ∅ end = us) as ->
    by (destruct (p !! "emailAddress"); by rewrite (right_id_L ∅ (∪))).
  assert (gs ∪ match p !! "emailAddress" with
               | Some _ => ∅ | None => ∅ end = gs) as ->
    by (destruct (p !! "emailAddress"); by rewrite (right_id_L ∅ (∪))).
  destruct (bool_decide (ty = "domain")) eqn:Hdomain; simpl.
  - apply bool_decide_eq_true in Hdomain as ->. simpl.
    destruct (str_truthy cd); simpl.
    + destruct (bool_decide (p !! "domain" = cd)); simpl.
      * by rewrite log_nil, orb_true_r.
      * by rewrite orb_false_r.
    + by rewrite log_nil, orb_false_r.
  - destruct (bool_decide (ty = "anyone")); simpl.
    + by rewrite log_nil, orb_true_r.
    + by rewrite log_nil, orb_false_r.
Qed.

Lemma classify_permission_raises cd acc p w :
  classifiable p = false →
  classify_permission cd acc p w = (Raise (KeyError (missing_key p)), w).
Proof.
  unfold classifiable, classify_permission, missing_key.
  destruct (perm_truthy p); simpl; [|discriminate].
  destruct (p !! "type") as [ty|]; [|done].
  destruct (bool_decide (ty = "user")); simpl.
  { destruct (p !! "emailAddress"); [|done].
    intros H. by rewrite bool_decide_eq_true_2 in H. }
  destruct (bool_decide (ty = "group")); simpl; [|discriminate].
  destruct (p !! "emailAddress"); [|done].
  intros H. by rewrite bool_decide_eq_true_2 in H.
Qed.

Lemma mismatch_warnings_app cd l1 l2 :
  mismatch_warnings cd (l1 ++ l2)
  = mismatch_warnings cd l1 ++ mismatch_warnings cd l2.
Proof. apply omap_app. Qed.

Lemma classify_loop_effect cd l acc w :
  Forall (λ p, classifiable p = true) l →
  classify_loop cd l acc w
  = (Ok (foldl (tally_add cd) acc l), log (mismatch_warnings cd l) w).
Proof.
  intros Hl. revert acc w.
  induction Hl as [|p l Hp _ IH]; intros acc w; simpl.
  - by rewrite log_nil.
  - rewrite bind_run, (classify_permission_effect _ _ _ _ Hp), IH, log_log.
    by rewrite <- mismatch_warnings_app.
Qed.

Lemma classify_loop_raises cd pre p post acc w :
  Forall (λ p, classifiable p = true) pre → classifiable p = false →
  classify_loop cd (pre ++ p :: post) acc w
  = (Raise (KeyError (missing_key p)), log (mismatch_warnings cd pre) w).
Proof.
  intros Hpre Hp. revert acc w.
  induction Hpre as [|q pre Hq _ IH]; intros acc w; simpl.
  - by rewrite bind_run, (classify_permission_raises _ _ _ _ Hp), log_nil.
  - rewrite bind_run, (classify_permission_effect _ _ _ _ Hq), IH, log_log.
    by rewrite <- mismatch_warnings_app.
Qed.

(** A list is classifiable throughout, or has a first entry that is not. *)
Lemma first_unclassifiable l :
  Forall (λ p, classifiable p = true) l
  ∨ ∃ pre p post, l = pre ++ p :: post
      ∧ Forall (λ p, classifiable p = true) pre ∧ classifiable p = false.
Proof.
  induction l as [|q l IH]; [by left|].
  destruct (classifiable q) eqn:Hq.
  - destruct IH as [Hl|(pre & p & post & -> & Hpre & Hp)].
    + left. by constructor.
    + right. exists (q :: pre), p, post. split; [done|]. split; [|done].
      by constructor.
  - right. by exists [], q, l.
Qed.

Lemma classify_loop_ok_inv cd l acc w acc' w' :
  classify_loop cd l acc w = (Ok acc', w') →
  Forall (λ p, classifiable p = true) l.
Proof.
  destruct (first_unclassifiable l)
    as [Hl|(pre & p & post & -> & Hpre & Hp)]; [done|].
  by rewrite (classify_loop_raises _ _ _ _ _ _ Hpre Hp).
Qed.

Lemma elem_of_entry_emails kind p e :
  e ∈ entry_emails kind p
  ↔ p !! "type" = Some kind ∧ p !! "emailAddress" = Some e.
Proof.
  unfold entry_emails.
  destruct (p !! "type") as [t|].
  2: { split; [by intros ?%not_elem_of_empty|by intros [? _]]. }
  destruct (p !! "emailAddress") as [e'|].
  2: { split; [by intros ?%not_elem_of_empty|by intros [_ ?]]. }
  case_bool_decide as Ht.
  - rewrite elem_of_singleton. subst.
    split; [by intros ->|by intros [_ [= ->]]].
  - split; [by intros ?%not_elem_of_empty|]. by intros [[= ->] _].
Qed.

Lemma grants_public_spec cd p :
  grants_public cd p = true
  ↔ p !! "type" = Some "anyone"
    ∨ (p !! "type" = Some "domain" ∧ str_truthy cd = true
       ∧ p !! "domain" = cd).
Proof.
  unfold grants_public. destruct (p !! "type") as [t|].
  2: { split; [done|]. by intros [?|[? _]]. }
  rewrite orb_true_iff, !andb_true_iff, !bool_decide_eq_true.
  split.
  - intros [->|[[-> ?] ?]]; [by left|by right].
  - intros [[= ->]|([= ->] & ? & ?)]; [by left|by right].
Qed.

Lemma tally_users cd l acc e :
  e ∈ user_emails (foldl (tally_add cd) acc l)
  ↔ e ∈ user_emails acc
    ∨ ∃ p, p ∈ l ∧ p !! "type" = Some "user" ∧ p !! "emailAddress" = Some e.
Proof.
  revert acc. induction l as [|q l IH]; intros acc; simpl.
  - split; [by left|]. intros [?|(p & Hp & _)]; [done|].
    by apply elem_of_nil in Hp.
  - rewrite IH. simpl. rewrite elem_of_union, elem_of_entry_emails.
    split.
    + intros [[?|?]|(p & Hp & ?)]; [by left|right; exists q|right; exists p].
      * split; [left|done].
      * split; [by right|done].
    + intros [?|(p & Hp & ?)]; [by left; left|].
      apply elem_of_cons in Hp as [->|Hp]; [by left; right|].
      right. by exists p.
Qed.

Lemma tally_groups cd l acc e :
  e ∈ group_emails (foldl (tally_add cd) acc l)
  ↔ e ∈ group_emails acc
    ∨ ∃ p, p ∈ l ∧ p !! "type" = Some "group" ∧ p !! "emailAddress" = Some e.
Proof.
  revert acc. induction l as [|q l IH]; intros acc; simpl.
  - split; [by left|]. intros [?|(p & Hp & _)]; [done|].
    by apply elem_of_nil in Hp.
  - rewrite IH. simpl. rewrite elem_of_union, elem_of_entry_emails.
    split.
    + intros [[?|?]|(p & Hp & ?)]; [by left|right; exists q|right; exists p].
      * split; [left|done].
      * split; [by right|done].
    + intros [?|(p & Hp & ?)]; [by left; left|].
      apply elem_of_cons in Hp as [->|Hp]; [by left; right|].
      right. by exists p.
Qed.

Lemma tally_public cd l acc :
  public (foldl (tally_add cd) acc l) = true
  ↔ public acc = true ∨ ∃ p, p ∈ l ∧ grants_public cd p = true.
Proof.
  revert acc. induction l as [|q l IH]; intros acc; simpl.
  - split; [by left|]. intros [?|(p & Hp & _)]; [done|].
    by apply elem_of_nil in Hp.
  - rewrite IH. simpl. rewrite orb_true_iff.
    split.
    + intros [[?|?]|(p & Hp & ?)]; [by left|right; exists q|right; exists p].
      * split; [left|done].
      * split; [by right|done].
    + intros [?|(p & Hp & ?)]; [by left; left|].
      apply elem_of_cons in Hp as [->|Hp]; [by left; right|].
      right. by exists p.
Qed.

Lemma tally_skipped cd l acc :
  skipped_permissions (foldl (tally_add cd) acc l)
  = (skipped_permissions acc + skipped_count l)%nat.
Proof.
  revert acc. induction l as [|q l IH]; intros acc; simpl.
  - unfold skipped_count. simpl. lia.
  - rewrite IH. simpl. unfold skipped_count, perm_truthy.
    rewrite filter_cons. case_bool_decide; case_decide; simpl; try done; lia.
Qed.

(** Lines 106-145 on a list that is classifiable throughout. *)
Lemma classify_permissions_effect c d i l w :
  Forall (λ p, classifiable p = true) l →
  classify_permissions c d i l w
  = (Ok {| external_user_emails :=
             user_emails (foldl (tally_add (google_domain c)) tally0 l);
           external_user_group_ids :=
             group_emails (foldl (tally_add (google_domain c)) tally0 l)
             ∪ (match drive_id i with Some g => {[g]} | None => ∅ end);
           is_public := public (foldl (tally_add (google_domain c)) tally0 l) |},
     log (mismatch_warnings (google_domain c) l
          ++ (if (0 <? skipped_count l)%nat
              then [EvWarning (SkippedPermissions (skipped_count l) (length l)
                                 (slim_id d))]
              else [])) w).
Proof.
  intros Hl. unfold classify_permissions.
  rewrite bind_run, (classify_loop_effect _ _ _ _ Hl), bind_run, tally_skipped.
  simpl. destruct (0 <? skipped_count l)%nat; simpl.
  - by rewrite <- log_log.
  - by rewrite app_nil_r.
Qed.

Lemma classify_permissions_raises c d i pre p post w :
  Forall (λ p, classifiable p = true) pre → classifiable p = false →
  classify_permissions c d i (pre ++ p :: post) w
  = (Raise (KeyError (missing_key p)),
     log (mismatch_warnings (google_domain c) pre) w).
Proof.
  intros Hpre Hp. unfold classify_permissions.
  by rewrite bind_run, (classify_loop_raises _ _ _ _ _ _ Hpre Hp).
Qed.

Lemma classify_permissions_ok_inv c d i l w r w' :
  classify_permissions c d i l w = (Ok r, w') →
  Forall (λ p, classifiable p = true) l.
Proof.
  destruct (first_unclassifiable l)
    as [Hl|(pre & p & post & -> & Hpre & Hp)]; [done|].
  by rewrite (classify_permissions_raises _ _ _ _ _ _ _ Hpre Hp).
Qed.

Lemma access_of_permissions_nonempty c d i l w :
  l ≠ [] →
  access_of_permissions c d i l w = classify_permissions c d i l w.
Proof. by destruct l. Qed.

(** X1.  The users and groups of the record are exactly those the resolved
    entries name, plus the parent collection when there are entries. *)
Theorem resolved_record_grants drive c d w l w1 r w2 :
  resolve_permissions_list drive c d w = (Ok l, w1) →
  _get_permissions_from_slim_doc drive c d w = (Ok r, w2) →
  (∀ e, e ∈ external_user_emails r
        ↔ ∃ p, p ∈ l ∧ p !! "type" = Some "user"
               ∧ p !! "emailAddress" = Some e)
  ∧ (∀ g, g ∈ external_user_group_ids r
          ↔ (∃ p, p ∈ l ∧ p !! "type" = Some "group"
                  ∧ p !! "emailAddress" = Some g)
            ∨ (l ≠ [] ∧ drive_id (info_of d) = Some g)).
Proof.
  intros Hl. rewrite resolver_run, Hl.
  destruct (decide (l = [])) as [->|Hne].
  { simpl. intros [= <- _]. simpl. split.
    - intros e. split; [by intros ?%not_elem_of_empty|].
      intros (p & Hp & _). by apply elem_of_nil in Hp.
    - intros g. split; [by intros ?%not_elem_of_empty|].
      intros [(p & Hp & _)|[? _]]; [by apply elem_of_nil in Hp|done]. }
  rewrite (access_of_permissions_nonempty _ _ _ _ _ Hne). intros Hrun.
  pose proof (classify_permissions_ok_inv _ _ _ _ _ _ _ Hrun) as Hok.
  rewrite (classify_permissions_effect _ _ _ _ _ Hok) in Hrun.
  injection Hrun as <- _.
  cbn [external_user_emails external_user_group_ids]. split.
  - intros e. rewrite tally_users. simpl.
    split; [intros [?%not_elem_of_empty|?]; done|by right].
  - intros g. rewrite elem_of_union, tally_groups. simpl.
    split.
    + intros [[?%not_elem_of_empty|?]|Hg]; [done|by left|].
      right. split; [done|].
      destruct (drive_id (info_of d)) as [g'|];
        [by apply elem_of_singleton in Hg as ->|by apply not_elem_of_empty in Hg].
    + intros [?|[_ Hg]]; [by left; right|].
      right. rewrite Hg. by apply elem_of_singleton.
Qed.

(** X2.  The record is public exactly when some resolved entry is of kind anyone,
    or of kind domain with the connection's configured domain. *)
Theorem resolved_record_public drive c d w l w1 r w2 :
  resolve_permissions_list drive c d w = (Ok l, w1) →
  _get_permissions_from_slim_doc drive c d w = (Ok r, w2) →
  is_public r = true
  ↔ ∃ p, p ∈ l
      ∧ (p !! "type" = Some "anyone"
         ∨ (p !! "type" = Some "domain"
            ∧ str_truthy (google_domain c) = true
            ∧ p !! "domain" = google_domain c)).
Proof.
  intros Hl. rewrite resolver_run, Hl.
  destruct (decide (l = [])) as [->|Hne].
  { simpl. intros [= <- _]. simpl. split; [done|].
    intros (p & Hp & _). by apply elem_of_nil in Hp. }
  rewrite (access_of_permissions_nonempty _ _ _ _ _ Hne). intros Hrun.
  pose proof (classify_permissions_ok_inv _ _ _ _ _ _ _ Hrun) as Hok.
  rewrite (classify_permissions_effect _ _ _ _ _ Hok) in Hrun.
  injection Hrun as <- _. cbn [is_public]. rewrite tally_public. simpl.
  split.
  - intros [?|(p & Hp & Hg)]; [done|]. exists p. split; [done|].
    by apply grants_public_spec.
  - intros (p & Hp & Hg). right. exists p. split; [done|].
    by apply grants_public_spec.
Qed.

(** X3.  The resolver returns a record exactly when every resolved entry is
    classifiable. *)
Theorem resolver_returns_iff_classifiable drive c d w l w1 :
  resolve_permissions_list drive c d w = (Ok l, w1) →
  (∃ r w2, _get_permissions_from_slim_doc drive c d w = (Ok r, w2))
  ↔ Forall (λ p, classifiable p = true) l.
Proof.
  intros Hl. rewrite resolver_run, Hl. split.
  - intros (r & w2 & Hrun).
    destruct (decide (l = [])) as [->|Hne]; [constructor|].
    rewrite (access_of_permissions_nonempty _ _ _ _ _ Hne) in Hrun.
    by apply (classify_permissions_ok_inv _ _ _ _ _ _ _ Hrun).
  - intros Hok.
    destruct (access_of_permissions_ok c d (info_of d) l w1 Hok) as (r & t & ->).
    by eexists _, _.
Qed.

(** X4.  The first entry that is not classifiable decides the error: the
    resolver raises [KeyError] on the key that entry lacks, after the
    mismatch warnings of the entries before it and without the summary of
    skipped entries. *)
Theorem resolver_error_at_first_bad_entry drive c d w pre p post w1 :
  resolve_permissions_list drive c d w = (Ok (pre ++ p :: post), w1) →
  Forall (λ p, classifiable p = true) pre → classifiable p = false →
  _get_permissions_from_slim_doc drive c d w
  = (Raise (KeyError (missing_key p)),
     log (mismatch_warnings (google_domain c) pre) w1).
Proof.
  intros Hl Hpre Hp. rewrite resolver_run, Hl.
  rewrite access_of_permissions_nonempty by (by destruct pre).
  by apply classify_permissions_raises.
Qed.

(** X5.  The diagnostics of a successful classification: one warning per domain
    entry of another domain, in list order, then a single summary of the
    skipped (empty) entries when there are any. *)
Theorem resolver_warnings drive c d w l w1 r w2 :
  resolve_permissions_list drive c d w = (Ok l, w1) → l ≠ [] →
  _get_permissions_from_slim_doc drive c d w = (Ok r, w2) →
  w2 = log (mismatch_warnings (google_domain c) l
            ++ (if (0 <? skipped_count l)%nat
                then [EvWarning (SkippedPermissions (skipped_count l)
                                   (length l) (slim_id d))]
                else [])) w1.
Proof.
  intros Hl Hne. rewrite resolver_run, Hl.
  rewrite (access_of_permissions_nonempty _ _ _ _ _ Hne). intros Hrun.
  pose proof (classify_permissions_ok_inv _ _ _ _ _ _ _ Hrun) as Hok.
  rewrite (classify_permissions_effect _ _ _ _ _ Hok) in Hrun.
  by injection Hrun as _ <-.
Qed.

(** ** Order of the entries *)

Lemma tally_permutation cd l1 l2 :
  l1 ≡ₚ l2 →
  user_emails (foldl (tally_add cd) tally0 l1)
  = user_emails (foldl (tally_add cd) tally0 l2)
  ∧ group_emails (foldl (tally_add cd) tally0 l1)
    = group_emails (foldl (tally_add cd) tally0 l2)
  ∧ public (foldl (tally_add cd) tally0 l1)
    = public (foldl (tally_add cd) tally0 l2).
Proof.
  intros Hperm. split; [|split].
  - apply set_eq. intros e. rewrite !tally_users.
    by setoid_rewrite Hperm.
  - apply set_eq. intros e. rewrite !tally_groups.
    by setoid_rewrite Hperm.
  - apply Bool.eq_iff_eq_true. rewrite !tally_public.
    by setoid_rewrite Hperm.
Qed.

Lemma resolve_embedded_nonempty drive c d i l w :
  perm_sync_data d = Some i → permissions i = Some l → l ≠ [] →
  resolve_permissions_list drive c d w = (Ok l, w).
Proof.
  intros Hd Hp Hne. destruct l as [|p l]; [done|].
  by apply (resolve_embedded _ _ _ i).
Qed.

(** X6.  The record does not depend on the order of the embedded entries. *)
Theorem embedded_order_irrelevant drive c d1 d2 i1 i2 l1 l2 w w' r w1 :
  perm_sync_data d1 = Some i1 → perm_sync_data d2 = Some i2 →
  permissions i1 = Some l1 → permissions i2 = Some l2 →
  l1 ≠ [] → l1 ≡ₚ l2 → drive_id i1 = drive_id i2 →
  _get_permissions_from_slim_doc drive c d1 w = (Ok r, w1) →
  ∃ w2, _get_permissions_from_slim_doc drive c d2 w' = (Ok r, w2).
Proof.
  intros Hd1 Hd2 Hp1 Hp2 Hne Hperm Hdrive.
  assert (l2 ≠ []) as Hne2.
  { intros ->. by apply Permutation_nil_r in Hperm. }
  rewrite !resolver_run.
  rewrite (resolve_embedded_nonempty _ _ _ _ _ _ Hd1 Hp1 Hne).
  rewrite (resolve_embedded_nonempty _ _ _ _ _ _ Hd2 Hp2 Hne2).
  rewrite !access_of_permissions_nonempty by done.
  unfold info_of. rewrite Hd1, Hd2. simpl default. intros Hrun.
  pose proof (classify_permissions_ok_inv _ _ _ _ _ _ _ Hrun) as Hok1.
  assert (Forall (λ p, classifiable p = true) l2) as Hok2
    by (by rewrite <- Hperm).
  rewrite (classify_permissions_effect _ _ _ _ _ Hok1) in Hrun.
  rewrite (classify_permissions_effect _ _ _ _ _ Hok2).
  injection Hrun as <- _.
  destruct (tally_permutation (google_domain c) _ _ Hperm) as (-> & -> & ->).
  rewrite Hdrive. by eexists.
Qed.

(** ** The cache across resolutions *)

Lemma cache_grows_refl w : cache_grows w w.
Proof. by intros pid. Qed.

Lemma cache_grows_trans w1 w2 w3 :
  cache_grows w1 w2 → cache_grows w2 w3 → cache_grows w1 w3.
Proof. intros H12 H23 pid Hpid. by apply H23, H12. Qed.

Lemma cache_grows_log t w : cache_grows w (log t w).
Proof. by intros pid. Qed.

Lemma store_fetched_app l1 l2 acc w :
  store_fetched (l1 ++ l2) acc w
  = match store_fetched l1 acc w with
    | (Ok acc', w1) => store_fetched l2 acc' w1
    | (Raise e, w1) => (Raise e, w1)
    end.
Proof.
  revert acc w. induction l1 as [|p l1 IH]; intros acc w; simpl; [done|].
  destruct (p !! "id") as [pid|]; [|done].
  rewrite !bind_run. simpl. apply IH.
Qed.

(** The write loop in general: it only adds or overwrites, it files every
    entry under its own id, and it leaves alone the ids no fetched entry
    carries. *)
Lemma store_fetched_cache fetched acc w :
  cache_grows w (store_fetched fetched acc w).2
  ∧ (cache_keyed_by_id w → cache_keyed_by_id (store_fetched fetched acc w).2)
  ∧ ∀ pid, (∀ p, p ∈ fetched → p !! "id" ≠ Some pid) →
           cache (store_fetched fetched acc w).2 !! pid = cache w !! pid.
Proof.
  revert acc w. induction fetched as [|p rest IH]; intros acc w; simpl.
  { split; [apply cache_grows_refl|]. by split. }
  destruct (p !! "id") as [i|] eqn:Hi; simpl.
  2: { split; [apply cache_grows_refl|]. by split. }
  rewrite bind_run. simpl.
  destruct (IH (acc ++ [p]) {| cache := <[i:=p]> (cache w); trace := trace w |})
    as (Hgrow & Hkey & Hrest).
  split; [|split].
  - intros pid Hpid. apply Hgrow. simpl.
    apply lookup_insert_is_Some'. by right.
  - intros Hw. apply Hkey. intros pid q. simpl.
    rewrite lookup_insert. case_decide as Hpid.
    + subst. by intros [= <-].
    + apply Hw.
  - intros pid Hnone. rewrite Hrest.
    + simpl. rewrite lookup_insert_ne; [done|]. intros ->.
      by apply (Hnone p); [left|].
    + intros q Hq. apply Hnone. by right.
Qed.

Lemma str_truthy_Some s :
  str_truthy s = true → ∃ doc, s = Some doc ∧ doc ≠ "".
Proof.
  destruct s as [doc|]; [|discriminate]. simpl.
  intros Hdoc%negb_true_iff%bool_decide_eq_false. by exists doc.
Qed.

(** The fetch in general: either it returns without touching the world, or
    it issues one call for the descriptor's own document under the acting
    identity. *)
Lemma fetch_cases drive c ids i w :
  ∃ out w1, _fetch_permissions_for_permission_ids drive c ids i w = (out, w1)
    ∧ key_error_only out
    ∧ cache_grows w w1
    ∧ (cache_keyed_by_id w → cache_keyed_by_id w1)
    ∧ (w1 = w
       ∨ ∃ doc, psd_doc_id i = Some doc ∧ doc ≠ ""
           ∧ trace w1 = trace w ++ [EvFetch (acting_identity c i) doc]).
Proof.
  unfold _fetch_permissions_for_permission_ids.
  destruct (info_truthy i); simpl.
  2: { exists (Ok []), w. split; [done|]. split; [done|].
       split; [apply cache_grows_refl|]. split; [done|by left]. }
  destruct (str_truthy (psd_doc_id i)) eqn:Hdoc; simpl.
  2: { exists (Ok []), w. split; [done|]. split; [done|].
       split; [apply cache_grows_refl|]. split; [done|by left]. }
  apply str_truthy_Some in Hdoc as (doc & Hdoc & Hne). rewrite Hdoc. simpl.
  rewrite bind_run. simpl.
  destruct (length _ =? length ids)%nat.
  { eexists _, w. split; [done|]. split; [done|].
    split; [apply cache_grows_refl|]. split; [done|by left]. }
  rewrite bind_run. unfold execute_paginated_retrieval.
  rewrite bind_run, emit_run. simpl. fold (acting_identity c i).
  set (fetched := response_entries (drive (acting_identity c i) doc)).
  set (w0 := log [EvFetch (acting_identity c i) doc] w).
  destruct (store_fetched_cache fetched [] w0) as (Hgrow & Hkey & _).
  pose proof (store_fetched_trace fetched [] w0) as Ht.
  destruct (store_fetched_step fetched [] w0) as (out & w1 & t & Hrun & _ & _ & Hout).
  rewrite Hrun in *. simpl in *.
  exists out, w1. split; [done|]. split; [done|]. split; [exact Hgrow|].
  split; [exact Hkey|]. right. by exists doc.
Qed.

Lemma warnings_are_resolver_events t :
  Forall (λ e, warning_event e = true) t →
  Forall (λ e, resolver_event e = true) t.
Proof. intros H. eapply Forall_impl; [exact H|]. by intros []. Qed.

Lemma access_of_permissions_key_error c d i l w :
  key_error_only (access_of_permissions c d i l w).1.
Proof.
  destruct (access_of_permissions_step c d i l w)
    as (out & w' & t & -> & _ & _ & Hout). exact Hout.
Qed.

(** The resolver in general. *)
Lemma resolver_cases drive c d w :
  ∃ out w' t, _get_permissions_from_slim_doc drive c d w = (out, w')
    ∧ trace w' = trace w ++ t
    ∧ Forall (λ e, resolver_event e = true) t
    ∧ key_error_only out
    ∧ cache_grows w w'
    ∧ (cache_keyed_by_id w → cache_keyed_by_id w')
    ∧ ((fetches t = [] ∧ cache w' = cache w)
       ∨ ∃ doc, psd_doc_id (info_of d) = Some doc ∧ doc ≠ ""
           ∧ list_truthy (permissions (info_of d)) = false
           ∧ fetches t = [(acting_identity c (info_of d), doc)]).
Proof.
  rewrite resolver_run.
  assert (∃ out w1, resolve_permissions_list drive c d w = (out, w1)
            ∧ key_error_only out ∧ cache_grows w w1
            ∧ (cache_keyed_by_id w → cache_keyed_by_id w1)
            ∧ (w1 = w
               ∨ ∃ doc, psd_doc_id (info_of d) = Some doc ∧ doc ≠ ""
                   ∧ list_truthy (permissions (info_of d)) = false
                   ∧ trace w1
                     = trace w ++ [EvFetch (acting_identity c (info_of d)) doc]))
    as (res & w1 & -> & Hres & Hgrow & Hkey & Hcase).
  { unfold resolve_permissions_list. fold (info_of d).
    destruct (permissions (info_of d)) as [[|p l]|] eqn:Hp; simpl.
    2: { eexists _, w. split; [done|]. split; [done|].
         split; [apply cache_grows_refl|]. split; [done|by left]. }
    all: destruct (list_truthy (permission_ids (info_of d))).
    all: try (eexists _, w; split; [done|]; split; [done|];
              split; [apply cache_grows_refl|]; split; [done|by left]).
    all: destruct (fetch_cases drive c (default [] (permission_ids (info_of d)))
                     (info_of d) w)
           as (out & w1 & -> & Hout & Hgrow & Hkey & Hcase);
         exists out, w1; split; [done|]; split; [done|]; split; [done|];
         split; [done|];
         destruct Hcase as [->|(doc & ? & ? & ?)]; [by left|right; by exists doc]. }
  destruct res as [l|e].
  - destruct (access_of_permissions_logs c d (info_of d) l w1)
      as (out & t & Hrun & Ht).
    pose proof (access_of_permissions_key_error c d (info_of d) l w1) as Hout.
    rewrite Hrun in *. simpl in Hout.
    destruct Hcase as [->|(doc & Hdoc & Hne & Hp & Hw1)].
    + exists out, (log t w), t. split; [done|]. split; [done|].
      split; [by apply warnings_are_resolver_events|].
      split; [done|]. split; [apply cache_grows_log|]. split; [done|].
      left. split; [by apply fetches_warnings|done].
    + exists out, (log t w1), (EvFetch (acting_identity c (info_of d)) doc :: t).
      split; [done|]. split.
      { simpl. rewrite Hw1, <- app_assoc. done. }
      split.
      { constructor; [done|]. by apply warnings_are_resolver_events. }
      split; [done|]. split; [exact Hgrow|]. split; [exact Hkey|].
      right. exists doc. split; [done|]. split; [done|]. split; [done|].
      change (EvFetch (acting_identity c (info_of d)) doc :: t)
        with ([EvFetch (acting_identity c (info_of d)) doc] ++ t).
      by rewrite fetches_app, (fetches_warnings _ Ht).
  - destruct Hcase as [->|(doc & Hdoc & Hne & Hp & Hw1)].
    + exists (Raise e), w, []. rewrite app_nil_r.
      split; [done|]. split; [done|]. split; [constructor|]. split; [done|].
      split; [apply cache_grows_refl|]. split; [done|by left].
    + exists (Raise e), w1, [EvFetch (acting_identity c (info_of d)) doc].
      split; [done|]. split; [done|]. split; [by repeat constructor|].
      split; [done|]. split; [done|]. split; [done|].
      right. by exists doc.
Qed.

(** X7.  A resolution issues at most one fetch, for the descriptor's own
    document under its acting identity and only when nothing is embedded;
    when it issues none, the cache is left as it was. *)
Theorem resolver_fetches_own_document_once drive c d w out w' :
  _get_permissions_from_slim_doc drive c d w = (out, w') →
  ∃ t, trace w' = trace w ++ t
    ∧ ((fetches t = [] ∧ cache w' = cache w)
       ∨ ∃ doc, psd_doc_id (info_of d) = Some doc ∧ doc ≠ ""
           ∧ list_truthy (permissions (info_of d)) = false
           ∧ fetches t = [(acting_identity c (info_of d), doc)]).
Proof.
  intros Hrun.
  destruct (resolver_cases drive c d w)
    as (out0 & w0 & t & Hrun0 & Ht & _ & _ & _ & _ & Hcase).
  rewrite Hrun in Hrun0. injection Hrun0 as <- <-. by exists t.
Qed.

(** X8.  Without a document id the references are not looked at: no fetch, the
    cache untouched, and the private record with its warning. *)
Theorem references_without_doc_id_resolve_private drive c d w :
  list_truthy (permissions (info_of d)) = false →
  str_truthy (psd_doc_id (info_of d)) = false →
  _get_permissions_from_slim_doc drive c d w
  = (Ok private_access, log [EvWarning (NoPermissionsFound (slim_id d))] w).
Proof.
  intros Hp Hdoc. rewrite resolver_run.
  assert (resolve_permissions_list drive c d w = (Ok [], w)) as ->; [|done].
  unfold resolve_permissions_list. fold (info_of d).
  destruct (permissions (info_of d)) as [[|p l]|]; try discriminate Hp; simpl.
  all: destruct (list_truthy (permission_ids (info_of d))); [|done].
  all: by apply fetch_without_doc_id.
Qed.

(** Lines 59-81 once the cache has missed: the write loop runs on what the
    Drive service returns. *)
Lemma fetch_some_uncached_unfold drive c ids i doc w :
  permission_ids i = Some ids →
  psd_doc_id i = Some doc → doc ≠ "" →
  Exists (λ pid, cache w !! pid = None) ids →
  _fetch_permissions_for_permission_ids drive c ids i w
  = store_fetched (response_entries (drive (acting_identity c i) doc)) []
      (log [EvFetch (acting_identity c i) doc] w).
Proof.
  intros Hi Hdoc Hne Hmiss. unfold _fetch_permissions_for_permission_ids.
  rewrite (info_truthy_ids _ _ Hi), Hdoc. simpl.
  rewrite bool_decide_eq_false_2 by done. simpl.
  rewrite bind_run. simpl.
  apply cached_some_missing_length in Hmiss.
  apply Nat.eqb_neq in Hmiss. rewrite Hmiss.
  rewrite bind_run. unfold execute_paginated_retrieval.
  by rewrite bind_run, emit_run.
Qed.

(** X9.  A fetched entry without [id] stops the write loop with [KeyError]: the
    entries before it are already in the cache, the ones after it are not
    written. *)
Theorem fetch_stops_at_entry_without_id drive c ids i doc pre p post w :
  permission_ids i = Some ids →
  psd_doc_id i = Some doc → doc ≠ "" →
  Exists (λ pid, cache w !! pid = None) ids →
  response_entries (drive (acting_identity c i) doc) = pre ++ p :: post →
  Forall (λ q, has_id q = true) pre → has_id p = false →
  ∃ w1, _fetch_permissions_for_permission_ids drive c ids i w
        = (Raise (KeyError "id"), w1)
    ∧ trace w1 = trace w ++ [EvFetch (acting_identity c i) doc]
    ∧ ∀ pid, cache w1 !! pid
             = match latest_with_id pid pre with
               | Some q => Some q
               | None => cache w !! pid
               end.
Proof.
  intros Hi Hdoc Hne Hmiss Hresp Hpre Hp.
  rewrite (fetch_some_uncached_unfold _ _ _ _ _ _ Hi Hdoc Hne Hmiss), Hresp.
  rewrite store_fetched_app.
  destruct (store_fetched_run pre [] (log [EvFetch (acting_identity c i) doc] w) Hpre)
    as (w1 & -> & Ht & Hc).
  exists w1. split; [|by split].
  simpl. apply bool_decide_eq_false in Hp.
  destruct (p !! "id") as [pid|] eqn:Hid; [|done].
  exfalso. apply Hp. by eexists.
Qed.

Lemma resolver_cache_after_resolve drive c d w res w1 out w' :
  resolve_permissions_list drive c d w = (res, w1) →
  _get_permissions_from_slim_doc drive c d w = (out, w') →
  cache w' = cache w1.
Proof.
  intros Hres. rewrite resolver_run, Hres. destruct res as [l|e].
  - destruct (access_of_permissions_logs c d (info_of d) l w1)
      as (out' & t & -> & _). by intros [= _ <-].
  - by intros [= _ <-].
Qed.

(** With every referenced identifier cached and a document id, the resolver
    reads the cache and issues no fetch. *)
Lemma resolver_all_cached drive c d i ids w :
  perm_sync_data d = Some i → list_truthy (permissions i) = false →
  permission_ids i = Some ids →
  str_truthy (psd_doc_id i) = true →
  Forall (λ pid, is_Some (cache w !! pid)) ids →
  ∃ out t, _get_permissions_from_slim_doc drive c d w = (out, log t w)
           ∧ fetches t = [].
Proof.
  intros Hd Hp Hi Hdoc Hall. rewrite resolver_run.
  assert (∃ l, resolve_permissions_list drive c d w = (Ok l, w)) as [l ->].
  { destruct ids as [|pid ids].
    - exists []. apply (resolve_no_references _ _ _ i); [done..|]. by rewrite Hi.
    - eexists. rewrite (resolve_referenced _ _ _ _ _ _ Hd Hp Hi); [|done].
      by apply fetch_all_cached. }
  destruct (access_of_permissions_logs c d (info_of d) l w) as (out & t & -> & Ht).
  exists out, t. split; [done|]. by apply fetches_warnings.
Qed.

Lemma latest_with_id_is_Some pid l p :
  p ∈ l → p !! "id" = Some pid → is_Some (latest_with_id pid l).
Proof.
  induction l as [|q l IH]; [by intros ?%elem_of_nil|].
  intros [->|Hp]%elem_of_cons Hid; simpl.
  - destruct (latest_with_id pid l); [by eexists|].
    rewrite bool_decide_eq_true_2 by done. by eexists.
  - destruct (IH Hp Hid) as [q' ->]. by eexists.
Qed.

(** X10.  Once a descriptor has been resolved, and the Drive service returns an
    entry for every referenced identifier that was not cached, resolving it
    again issues no fetch. *)
Theorem second_resolution_needs_no_fetch drive c d i ids doc w out w' :
  perm_sync_data d = Some i → list_truthy (permissions i) = false →
  permission_ids i = Some ids →
  psd_doc_id i = Some doc → doc ≠ "" →
  Forall (λ p, has_id p = true)
    (response_entries (drive (acting_identity c i) doc)) →
  Forall (λ pid, is_Some (cache w !! pid)
                 ∨ ∃ p, p ∈ response_entries (drive (acting_identity c i) doc)
                        ∧ p !! "id" = Some pid) ids →
  _get_permissions_from_slim_doc drive c d w = (out, w') →
  ∃ out2 t, _get_permissions_from_slim_doc drive c d w' = (out2, log t w')
            ∧ fetches t = [].
Proof.
  intros Hd Hp Hi Hdoc Hne Hids Hcover Hrun.
  assert (str_truthy (psd_doc_id i) = true) as Htruthy.
  { rewrite Hdoc. simpl. by rewrite bool_decide_eq_false_2. }
  apply (resolver_all_cached _ _ _ i ids); [done..|].
  destruct (decide (Forall (λ pid, is_Some (cache w !! pid)) ids)) as [Hall|Hmiss].
  - destruct (resolver_all_cached drive c d i ids w Hd Hp Hi Htruthy Hall)
      as (out0 & t & Hrun0 & _).
    rewrite Hrun in Hrun0. by injection Hrun0 as _ ->.
  - apply not_Forall_Exists in Hmiss; [|apply _].
    assert (Exists (λ pid, cache w !! pid = None) ids) as Hmiss'.
    { eapply Exists_impl; [exact Hmiss|]. intros pid Hpid. simpl in Hpid.
      by apply eq_None_not_Some. }
    assert (ids ≠ []) as Hnil by (intros ->; by apply Exists_nil in Hmiss').
    destruct (fetch_some_uncached drive c ids i doc w Hi Hdoc Hne Hmiss' Hids)
      as (w1 & Hfetch & _ & Hc).
    rewrite <- (resolve_referenced _ _ _ _ _ _ Hd Hp Hi Hnil) in Hfetch.
    rewrite (resolver_cache_after_resolve _ _ _ _ _ _ _ _ Hfetch Hrun).
    eapply Forall_impl; [exact Hcover|]. intros pid [Hold|(p & Hin & Hid)].
    + rewrite Hc. by destruct (latest_with_id pid _).
    + rewrite Hc. by destruct (latest_with_id_is_Some _ _ _ Hin Hid) as [q ->].
Qed.

(** X11.  A referenced identifier that is neither cached nor returned by the
    Drive service is never learnt: every resolution of the descriptor
    fetches again. *)
Theorem unresolvable_reference_refetched drive c d i ids doc pid w out w' out2 w'' :
  perm_sync_data d = Some i → list_truthy (permissions i) = false →
  permission_ids i = Some ids →
  psd_doc_id i = Some doc → doc ≠ "" →
  pid ∈ ids → cache w !! pid = None →
  (∀ p, p ∈ response_entries (drive (acting_identity c i) doc) →
        p !! "id" ≠ Some pid) →
  _get_permissions_from_slim_doc drive c d w = (out, w') →
  _get_permissions_from_slim_doc drive c d w' = (out2, w'') →
  fetches (trace w'')
  = fetches (trace w)
    ++ [(acting_identity c i, doc); (acting_identity c i, doc)].
Proof.
  intros Hd Hp Hi Hdoc Hne Hpid Hnone Hnever.
  assert (ids ≠ []) as Hnil by (intros ->; by apply elem_of_nil in Hpid).
  assert (∀ w out w',
            cache w !! pid = None →
            _get_permissions_from_slim_doc drive c d w = (out, w') →
            fetches (trace w')
            = fetches (trace w) ++ [(acting_identity c i, doc)]
            ∧ cache w' !! pid = None) as Hstep.
  { clear w out w' out2 w'' Hnone. intros w out w' Hnone Hrun.
    assert (Exists (λ pid, cache w !! pid = None) ids) as Hmiss
      by (apply Exists_exists; by exists pid).
    pose proof (resolve_referenced drive c _ _ _ w Hd Hp Hi Hnil) as Hres.
    rewrite (fetch_some_uncached_unfold _ _ _ _ _ _ Hi Hdoc Hne Hmiss) in Hres.
    set (fetched := response_entries (drive (acting_identity c i) doc)) in *.
    set (w0 := log [EvFetch (acting_identity c i) doc] w) in *.
    destruct (store_fetched_cache fetched [] w0) as (_ & _ & Hkeep).
    pose proof (store_fetched_trace fetched [] w0) as Ht.
    destruct (store_fetched fetched [] w0) as [res w1] eqn:Hstore.
    simpl in Ht. specialize (Hkeep pid Hnever). simpl in Hkeep.
    split.
    - revert Hrun. rewrite resolver_run, Hres. destruct res as [l|e].
      + destruct (access_of_permissions_logs c d (info_of d) l w1)
          as (out' & t & -> & Hw).
        intros [= _ <-]. simpl.
        rewrite Ht, !fetches_app, (fetches_warnings _ Hw). simpl.
        by rewrite app_nil_r.
      + intros [= _ <-]. rewrite Ht. simpl. by rewrite fetches_app.
    - rewrite (resolver_cache_after_resolve _ _ _ _ _ _ _ _ Hres Hrun).
      by rewrite Hkeep. }
  intros Hrun1 Hrun2.
  destruct (Hstep _ _ _ Hnone Hrun1) as (Hf1 & Hnone1).
  destruct (Hstep _ _ _ Hnone1 Hrun2) as (Hf2 & _).
  by rewrite Hf2, Hf1, <- app_assoc.
Qed.

(** ** The run as a whole *)

Lemma callback_events_callback_round callback :
  callback_events (callback_round callback) = callback_round callback.
Proof. by destruct callback. Qed.

Lemma fetches_callback_round callback : fetches (callback_round callback) = [].
Proof. by destruct callback. Qed.

Lemma yielded_callback_round callback : yielded (callback_round callback) = [].
Proof. by destruct callback. Qed.

(** One pass of the loop body. *)
Lemma sync_slim_doc_cases drive callback c d w :
  (∃ cb, callback = Some cb ∧ should_stop cb (trace w) = true
     ∧ sync_slim_doc drive callback c d w
       = (Raise (RuntimeError stop_message), log [EvShouldStop true] w))
  ∨ ∃ res w1 t,
      trace w1
      = trace w ++ callback_round callback ++ t
      ∧ Forall (λ e, resolver_event e = true) t
      ∧ key_error_only res
      ∧ cache_grows w w1
      ∧ (cache_keyed_by_id w → cache_keyed_by_id w1)
      ∧ (length (fetches t) ≤ 1)%nat
      ∧ sync_slim_doc drive callback c d w
        = match res with
          | Ok ext =>
              (Ok tt, log [EvYield {| external_access := ext;
                                      doc_id := slim_id d |}] w1)
          | Raise e => (Raise e, w1)
          end.
Proof.
  destruct callback as [cb|].
  - destruct (should_stop cb (trace w)) eqn:Hstop.
    { left. exists cb. split; [done|]. split; [done|].
      by apply sync_slim_doc_stop. }
    right. rewrite (sync_slim_doc_continue _ _ _ _ _ Hstop).
    destruct (resolver_cases drive c d (log progress_round w))
      as (res & w1 & t & Hrun & Ht & Hev & Hres & Hgrow & Hkey & Hcase).
    unfold progress_round in Hrun. rewrite Hrun.
    exists res, w1, t. split; [by rewrite Ht; simpl; rewrite <- app_assoc|].
    split; [done|]. split; [done|]. split; [done|]. split; [done|].
    split; [|done].
    destruct Hcase as [[-> _]|(doc & _ & _ & _ & ->)]; simpl; lia.
  - right. rewrite sync_slim_doc_no_callback.
    destruct (resolver_cases drive c d w)
      as (res & w1 & t & -> & Ht & Hev & Hres & Hgrow & Hkey & Hcase).
    exists res, w1, t. split; [done|].
    split; [done|]. split; [done|]. split; [done|]. split; [done|].
    split; [|done].
    destruct Hcase as [[-> _]|(doc & _ & _ & _ & ->)]; simpl; lia.
Qed.

(** The loop over the documents: [n] documents passed the check, [m] of
    them were emitted. *)
Lemma for_each_sync_summary drive callback c docs w out w' :
  for_each (sync_slim_doc drive callback c) docs w = (out, w') →
  ∃ n m t,
    trace w' = trace w ++ t
    ∧ callback_events t
      = concat (replicate n (callback_round callback))
        ++ match out with
           | Raise (RuntimeError _) => [EvShouldStop true]
           | _ => []
           end
    ∧ doc_id <$> yielded t = slim_id <$> take m docs
    ∧ match out with
      | Ok _ => n = length docs ∧ m = n
      | Raise (RuntimeError msg) =>
          msg = stop_message ∧ m = n ∧ (n < length docs)%nat
          ∧ is_Some callback ∧ last t = Some (EvShouldStop true)
      | Raise (KeyError _) => n = S m ∧ (n ≤ length docs)%nat
      end
    ∧ (length (fetches t) ≤ n)%nat
    ∧ cache_grows w w'
    ∧ (cache_keyed_by_id w → cache_keyed_by_id w').
Proof.
  revert w. induction docs as [|d docs IH]; intros w; simpl.
  { intros [= <- <-]. exists 0, 0, []. rewrite app_nil_r.
    split; [done|]. split; [by destruct callback|]. split; [done|].
    split; [done|]. split; [done|]. split; [apply cache_grows_refl|done]. }
  rewrite bind_run.
  destruct (sync_slim_doc_cases drive callback c d w)
    as [(cb & -> & Hstop & ->)
       |(res & w1 & t & Ht & Hev & Hres & Hgrow & Hkey & Hfetch & ->)].
  { intros [= <- <-]. exists 0, 0, [EvShouldStop true].
    split; [done|]. split; [done|]. split; [done|].
    split; [|split; [simpl; lia|split; [apply cache_grows_log|done]]].
    split; [done|]. split; [done|]. split; [simpl; lia|]. by split; [eexists|]. }
  destruct res as [ext|e].
  - intros Hrest.
    destruct (IH _ Hrest) as (n & m & t' & Ht' & Hcb & Hy & Hout & Hf & Hg & Hk).
    exists (S n), (S m),
      (callback_round callback ++ t
       ++ [EvYield {| external_access := ext; doc_id := slim_id d |}] ++ t').
    split.
    { rewrite Ht'. simpl. rewrite Ht. by rewrite <- !app_assoc. }
    split.
    { rewrite !callback_events_app, (callback_events_resolver _ Hev), Hcb.
      rewrite callback_events_callback_round. simpl.
      by rewrite <- app_assoc. }
    split.
    { rewrite !yielded_app, (yielded_resolver _ Hev), yielded_callback_round.
      simpl. f_equal. exact Hy. }
    split.
    { destruct out as [[]|[k|msg]].
      - destruct Hout as [-> ->]. done.
      - destruct Hout as [-> Hle]. split; [done|]. simpl. lia.
      - destruct Hout as (-> & -> & Hlt & Hsome & Hlast).
        split; [done|]. split; [done|]. split; [simpl; lia|]. split; [done|].
        rewrite !last_app, Hlast. done. }
    split.
    { rewrite !fetches_app, fetches_callback_round.
      simpl. rewrite length_app. simpl. lia. }
    split.
    { eapply cache_grows_trans; [exact Hgrow|].
      eapply cache_grows_trans; [apply cache_grows_log|exact Hg]. }
    intros Hw. by apply Hk, Hkey.
  - intros [= <- <-]. destruct e as [k|msg]; [|done].
    exists 1, 0, (callback_round callback ++ t).
    split; [done|]. split.
    { rewrite callback_events_app, (callback_events_resolver _ Hev).
      rewrite callback_events_callback_round. simpl. by rewrite !app_nil_r. }
    split.
    { by rewrite yielded_app, (yielded_resolver _ Hev), yielded_callback_round. }
    split; [split; [done|simpl; lia]|].
    split.
    { by rewrite fetches_app, fetches_callback_round. }
    by split.
Qed.

(** X12.  For any callback, the records a run emits carry the ids of the stream's
    documents, in stream order, without gap or repetition; a run that
    returns normally has emitted one for every document. *)
Theorem emitted_ids_follow_stream drive now cc_pair callback w out w' :
  gdrive_doc_sync drive now cc_pair callback w = (out, w') →
  ∃ m t, trace w' = trace w ++ t
    ∧ doc_id <$> yielded t
      = slim_id <$> take m (concat (_get_slim_doc_generator now cc_pair
                                      (connector cc_pair)))
    ∧ (out = Ok tt →
       m = length (concat (_get_slim_doc_generator now cc_pair
                             (connector cc_pair)))).
Proof.
  rewrite gdrive_doc_sync_run. intros Hrun.
  destruct (for_each_sync_summary _ _ _ _ _ _ _ Hrun)
    as (n & m & t & Ht & _ & Hy & Hout & _).
  exists m, t. split; [done|]. split; [done|].
  intros ->. by destruct Hout as [-> ->].
Qed.

(** X13.  A run ends with [RuntimeError] only through the stop signal: a callback
    was supplied, the message is the stop message, and the last thing that
    happened is a poll that read true. *)
Theorem stop_error_only_from_callback drive now cc_pair callback w msg w' :
  gdrive_doc_sync drive now cc_pair callback w = (Raise (RuntimeError msg), w') →
  msg = stop_message ∧ is_Some callback
  ∧ last (trace w') = Some (EvShouldStop true).
Proof.
  rewrite gdrive_doc_sync_run. intros Hrun.
  destruct (for_each_sync_summary _ _ _ _ _ _ _ Hrun)
    as (n & m & t & Ht & _ & _ & (Hmsg & _ & _ & Hcb & Hlast) & _).
  split; [done|]. split; [done|].
  by rewrite Ht, last_app, Hlast.
Qed.

(** X14.  With a callback, polls and progress records alternate: one false poll
    and one unit of progress for each of the [n] documents that pass the
    check, then a true poll if the run is stopped.  The run emits [n]
    records, or [n - 1] when resolving the last of them raised: its unit of
    progress is recorded all the same. *)
Theorem callback_accounting drive now cc_pair cb w out w' :
  gdrive_doc_sync drive now cc_pair (Some cb) w = (out, w') →
  ∃ n t, trace w' = trace w ++ t
    ∧ (n ≤ length (concat (_get_slim_doc_generator now cc_pair
                             (connector cc_pair))))%nat
    ∧ callback_events t
      = concat (replicate n progress_round)
        ++ match out with
           | Raise (RuntimeError _) => [EvShouldStop true]
           | _ => []
           end
    ∧ length (yielded t)
      = match out with
        | Raise (KeyError _) => (n - 1)%nat
        | _ => n
        end.
Proof.
  rewrite gdrive_doc_sync_run. intros Hrun.
  destruct (for_each_sync_summary _ _ _ _ _ _ _ Hrun)
    as (n & m & t & Ht & Hcb & Hy & Hout & _).
  exists n, t. split; [done|].
  apply (f_equal length) in Hy. rewrite !length_fmap, length_take in Hy.
  destruct out as [[]|[k|msg]].
  - destruct Hout as [-> ->]. split; [done|]. split; [done|]. lia.
  - destruct Hout as [-> Hle]. split; [done|]. split; [done|]. lia.
  - destruct Hout as (_ & -> & Hlt & _). split; [lia|]. split; [done|]. lia.
Qed.

(** X15.  A run issues at most one fetch per document of the stream. *)
Theorem run_fetches_at_most_once_per_document drive now cc_pair callback w out w' :
  gdrive_doc_sync drive now cc_pair callback w = (out, w') →
  ∃ t, trace w' = trace w ++ t
    ∧ (length (fetches t)
       ≤ length (concat (_get_slim_doc_generator now cc_pair
                           (connector cc_pair))))%nat.
Proof.
  rewrite gdrive_doc_sync_run. intros Hrun.
  destruct (for_each_sync_summary _ _ _ _ _ _ _ Hrun)
    as (n & m & t & Ht & _ & _ & Hout & Hf & _).
  exists t. split; [done|].
  destruct out as [[]|[k|msg]].
  - destruct Hout as [-> _]. lia.
  - destruct Hout as [_ Hle]. lia.
  - destruct Hout as (_ & _ & Hlt & _). lia.
Qed.

(** X16.  The cache is never evicted: an identifier cached before a run is
    cached after it, however the run ends. *)
Theorem run_never_evicts_cache drive now cc_pair callback w out w' pid :
  gdrive_doc_sync drive now cc_pair callback w = (out, w') →
  is_Some (cache w !! pid) → is_Some (cache w' !! pid).
Proof.
  rewrite gdrive_doc_sync_run. intros Hrun.
  destruct (for_each_sync_summary _ _ _ _ _ _ _ Hrun)
    as (n & m & t & _ & _ & _ & _ & _ & Hgrow & _).
  apply Hgrow.
Qed.

(** X17.  Every entry a run puts in the cache sits under its own [id]: if the
    cache is keyed that way before the run, it is after it. *)
Theorem run_keeps_cache_keyed_by_id drive now cc_pair callback w out w' :
  gdrive_doc_sync drive now cc_pair callback w = (out, w') →
  cache_keyed_by_id w → cache_keyed_by_id w'.
Proof.
  rewrite gdrive_doc_sync_run. intros Hrun.
  destruct (for_each_sync_summary _ _ _ _ _ _ _ Hrun)
    as (n & m & t & _ & _ & _ & _ & _ & _ & Hkey).
  exact Hkey.
Qed.

Lemma for_each_ext {A} (body1 body2 : A → Eff unit) l w :
  (∀ x w, body1 x w = body2 x w) →
  for_each body1 l w = for_each body2 l w.
Proof.
  intros Hext. revert w. induction l as [|x l IH]; intros w; simpl; [done|].
  rewrite !bind_run, Hext. by destruct (body2 x w) as [[[]|e] w1].
Qed.

Lemma sync_slim_doc_connector drive callback c1 c2 d w :
  primary_admin_email c1 = primary_admin_email c2 →
  google_domain c1 = google_domain c2 →
  sync_slim_doc drive callback c1 d w = sync_slim_doc drive callback c2 d w.
Proof.
  destruct c1 as [a1 g1 r1], c2 as [a2 g2 r2]. simpl. by intros -> ->.
Qed.

(** X18.  Batch boundaries do not show: two streams with the same documents in
    the same order, however cut into batches, give the same run. *)
Theorem batching_is_invisible drive now cc1 cc2 callback w :
  primary_admin_email (connector cc1) = primary_admin_email (connector cc2) →
  google_domain (connector cc1) = google_domain (connector cc2) →
  concat (_get_slim_doc_generator now cc1 (connector cc1))
  = concat (_get_slim_doc_generator now cc2 (connector cc2)) →
  gdrive_doc_sync drive now cc1 callback w
  = gdrive_doc_sync drive now cc2 callback w.
Proof.
  intros Hadmin Hdomain Hdocs. rewrite !gdrive_doc_sync_run, Hdocs.
  apply for_each_ext. intros d w0. by apply sync_slim_doc_connector.
Qed.

(** ** The further properties at concrete inputs *)

Lemma resolved_record_grants_witness :
  (∀ e, e ∈ external_user_emails access_d2
        ↔ ∃ p, p ∈ [p_user1] ∧ p !! "type" = Some "user"
               ∧ p !! "emailAddress" = Some e)
  ∧ (∀ g, g ∈ external_user_group_ids access_d2
          ↔ (∃ p, p ∈ [p_user1] ∧ p !! "type" = Some "group"
                  ∧ p !! "emailAddress" = Some g)
            ∨ ([p_user1] ≠ [] ∧ drive_id (info_of doc_d2) = Some g)).
Proof.
  apply (resolved_record_grants drive_d2 conn0 doc_d2 world0 [p_user1]
           world_d2 access_d2 world_d2); vm_compute; reflexivity.
Defined.

Lemma resolved_record_public_witness :
  is_public public_access = true
  ↔ ∃ p, p ∈ [p_anyone]
      ∧ (p !! "type" = Some "anyone"
         ∨ (p !! "type" = Some "domain"
            ∧ str_truthy (google_domain conn0) = true
            ∧ p !! "domain" = google_domain conn0)).
Proof.
  apply (resolved_record_public no_drive conn0 doc_d1 world0 [p_anyone]
           world0 public_access world0); vm_compute; reflexivity.
Defined.

Lemma resolver_returns_iff_classifiable_witness :
  (∃ r w2, _get_permissions_from_slim_doc no_drive conn0 doc_bad world0
           = (Ok r, w2))
  ↔ Forall (λ p, classifiable p = true) [p_no_type].
Proof.
  apply (resolver_returns_iff_classifiable no_drive conn0 doc_bad world0
           [p_no_type] world0).
  vm_compute. reflexivity.
Defined.

Lemma resolver_error_at_first_bad_entry_witness :
  _get_permissions_from_slim_doc no_drive conn0 doc_mixed world0
  = (Raise (KeyError (missing_key p_no_type)),
     log (mismatch_warnings (google_domain conn0) [p_domain]) world0).
Proof.
  apply (resolver_error_at_first_bad_entry no_drive conn0 doc_mixed world0
           [p_domain] p_no_type [p_anyone] world0).
  - vm_compute. reflexivity.
  - repeat constructor.
  - vm_compute. reflexivity.
Defined.

Lemma resolver_warnings_witness :
  world_warn
  = log (mismatch_warnings (google_domain conn0) [p_domain; ∅; p_anyone]
         ++ (if (0 <? skipped_count [p_domain; ∅; p_anyone])%nat
             then [EvWarning (SkippedPermissions
                                (skipped_count [p_domain; ∅; p_anyone])
                                (length [p_domain; ∅; p_anyone])
                                (slim_id doc_warn))]
             else [])) world0.
Proof.
  apply (resolver_warnings no_drive conn0 doc_warn world0
           [p_domain; ∅; p_anyone] world0 public_access world_warn).
  - vm_compute. reflexivity.
  - discriminate.
  - vm_compute. reflexivity.
Defined.

Lemma embedded_order_irrelevant_witness :
  ∃ w2, _get_permissions_from_slim_doc no_drive conn0 doc_ba world_cached
        = (Ok access_ab, w2).
Proof.
  apply (embedded_order_irrelevant no_drive conn0 doc_ab doc_ba info_ab info_ba
           [p_anyone; p_user1] [p_user1; p_anyone] world0 world_cached
           access_ab world0); try reflexivity.
  - discriminate.
  - apply perm_swap.
Defined.

Lemma resolver_fetches_own_document_once_witness :
  ∃ t, trace world_d2 = trace world0 ++ t
    ∧ ((fetches t = [] ∧ cache world_d2 = cache world0)
       ∨ ∃ doc, psd_doc_id (info_of doc_d2) = Some doc ∧ doc ≠ ""
           ∧ list_truthy (permissions (info_of doc_d2)) = false
           ∧ fetches t = [(acting_identity conn0 (info_of doc_d2), doc)]).
Proof.
  apply (resolver_fetches_own_document_once drive_d2 conn0 doc_d2 world0
           (Ok access_d2) world_d2).
  vm_compute. reflexivity.
Defined.

Lemma references_without_doc_id_resolve_private_witness :
  _get_permissions_from_slim_doc no_drive conn0 doc_no_doc_id world_cached
  = (Ok private_access,
     log [EvWarning (NoPermissionsFound (slim_id doc_no_doc_id))] world_cached).
Proof.
  apply (references_without_doc_id_resolve_private no_drive conn0 doc_no_doc_id
           world_cached); reflexivity.
Defined.

Lemma fetch_stops_at_entry_without_id_witness :
  ∃ w1, _fetch_permissions_for_permission_ids drive_partial conn0 ["p1"]
          info_d2 world0
        = (Raise (KeyError "id"), w1)
    ∧ trace w1 = trace world0 ++ [EvFetch (acting_identity conn0 info_d2) "d2"]
    ∧ ∀ pid, cache w1 !! pid
             = match latest_with_id pid [p_user1] with
               | Some q => Some q
               | None => cache world0 !! pid
               end.
Proof.
  apply (fetch_stops_at_entry_without_id drive_partial conn0 ["p1"] info_d2
           "d2" [p_user1] p_anyone [p_anyone1] world0); try reflexivity.
  - discriminate.
  - left. vm_compute. reflexivity.
  - repeat constructor.
Defined.

Lemma second_resolution_needs_no_fetch_witness :
  ∃ out2 t, _get_permissions_from_slim_doc drive_d2 conn0 doc_d2 world_d2
            = (out2, log t world_d2)
            ∧ fetches t = [].
Proof.
  apply (second_resolution_needs_no_fetch drive_d2 conn0 doc_d2 info_d2 ["p1"]
           "d2" world0 (Ok access_d2) world_d2); try reflexivity.
  - discriminate.
  - vm_compute. repeat constructor.
  - constructor; [|constructor]. right. exists p_user1.
    split; [|reflexivity].
    assert (response_entries (drive_d2 (acting_identity conn0 info_d2) "d2")
            = [p_user1]) as -> by (vm_compute; reflexivity).
    left.
Defined.

Lemma unresolvable_reference_refetched_witness :
  fetches (trace world_d3_twice)
  = fetches (trace world0)
    ++ [(acting_identity conn0 info_d3, "d3");
        (acting_identity conn0 info_d3, "d3")].
Proof.
  apply (unresolvable_reference_refetched no_drive conn0 doc_d3 info_d3 ["p9"]
           "d3" "p9" world0 (Ok private_access) world_d3_once
           (Ok private_access) world_d3_twice); try reflexivity.
  - discriminate.
  - left.
  - intros p Hp. by apply elem_of_nil in Hp.
Defined.

Lemma emitted_ids_follow_stream_witness :
  ∃ m t, trace world_after_run = trace world0 ++ t
    ∧ doc_id <$> yielded t
      = slim_id <$> take m (concat (_get_slim_doc_generator 0
                                      (cc_of [[doc_d1]; [doc_d2]])
                                      (connector (cc_of [[doc_d1]; [doc_d2]]))))
    ∧ (Ok tt = Ok tt →
       m = length (concat (_get_slim_doc_generator 0
                             (cc_of [[doc_d1]; [doc_d2]])
                             (connector (cc_of [[doc_d1]; [doc_d2]]))))).
Proof.
  apply (emitted_ids_follow_stream drive_d2 0 (cc_of [[doc_d1]; [doc_d2]]) None
           world0 (Ok tt) world_after_run).
  vm_compute. reflexivity.
Defined.

Lemma stop_error_only_from_callback_witness :
  stop_message = stop_message ∧ is_Some (Some (stop_after 1))
  ∧ last (trace (log [EvShouldStop true] world_after_d1))
    = Some (EvShouldStop true).
Proof.
  apply (stop_error_only_from_callback no_drive 0 (cc_of [[doc_d1; doc_d3]])
           (Some (stop_after 1)) world0 stop_message
           (log [EvShouldStop true] world_after_d1)).
  vm_compute. reflexivity.
Defined.

Lemma callback_accounting_witness :
  ∃ n t, trace (log [EvShouldStop true] world_after_d1) = trace world0 ++ t
    ∧ (n ≤ length (concat (_get_slim_doc_generator 0
                             (cc_of [[doc_d1; doc_d3]])
                             (connector (cc_of [[doc_d1; doc_d3]])))))%nat
    ∧ callback_events t
      = concat (replicate n progress_round) ++ [EvShouldStop true]
    ∧ length (yielded t) = n.
Proof.
  apply (callback_accounting no_drive 0 (cc_of [[doc_d1; doc_d3]])
           (stop_after 1) world0 (Raise (RuntimeError stop_message))
           (log [EvShouldStop true] world_after_d1)).
  vm_compute. reflexivity.
Defined.

Lemma run_fetches_at_most_once_per_document_witness :
  ∃ t, trace world_after_run = trace world0 ++ t
    ∧ (length (fetches t)
       ≤ length (concat (_get_slim_doc_generator 0
                           (cc_of [[doc_d1]; [doc_d2]])
                           (connector (cc_of [[doc_d1]; [doc_d2]])))))%nat.
Proof.
  apply (run_fetches_at_most_once_per_document drive_d2 0
           (cc_of [[doc_d1]; [doc_d2]]) None world0 (Ok tt) world_after_run).
  vm_compute. reflexivity.
Defined.


Lemma batching_is_invisible_witness :
  gdrive_doc_sync no_drive 0 (cc_of [[doc_d1; doc_d3]])
    (Some (stop_after 1)) world0
  = gdrive_doc_sync no_drive 0 (cc_of [[doc_d1]; []; [doc_d3]])
      (Some (stop_after 1)) world0.
Proof.
  apply (batching_is_invisible no_drive 0 (cc_of [[doc_d1; doc_d3]])
           (cc_of [[doc_d1]; []; [doc_d3]]) (Some (stop_after 1)) world0);
    reflexivity.
Defined.

(** * The record of a resolution, by content *)

(** What lines 98-145 put in the record they return, read off the entries:
    nothing for an empty list; otherwise the emails of the user and group
    entries, the parent collection, and public for an anyone entry or a
    domain entry of the configured domain. *)
Lemma access_of_permissions_content c d i l w r w' :
  access_of_permissions c d i l w = (Ok r, w') →
  (∀ e, e ∈ external_user_emails r
        ↔ ∃ p, p ∈ l ∧ p !! "type" = Some "user"
               ∧ p !! "emailAddress" = Some e)
  ∧ (∀ g, g ∈ external_user_group_ids r
          ↔ (∃ p, p ∈ l ∧ p !! "type" = Some "group"
                  ∧ p !! "emailAddress" = Some g)
            ∨ (l ≠ [] ∧ drive_id i = Some g))
  ∧ (is_public r = true
     ↔ ∃ p, p ∈ l
         ∧ (p !! "type" = Some "anyone"
            ∨ (p !! "type" = Some "domain"
               ∧ str_truthy (google_domain c) = true
               ∧ p !! "domain" = google_domain c))).
Proof.
  destruct (decide (l = [])) as [->|Hne].
  { simpl. intros [= <- _]. simpl. split; [|split].
    - intros e. split; [by intros ?%not_elem_of_empty|].
      intros (p & Hp & _). by apply elem_of_nil in Hp.
    - intros g. split; [by intros ?%not_elem_of_empty|].
      intros [(p & Hp & _)|[? _]]; [by apply elem_of_nil in Hp|done].
    - split; [done|]. intros (p & Hp & _). by apply elem_of_nil in Hp. }
  rewrite (access_of_permissions_nonempty _ _ _ _ _ Hne). intros Hrun.
  pose proof (classify_permissions_ok_inv _ _ _ _ _ _ _ Hrun) as Hok.
  rewrite (classify_permissions_effect _ _ _ _ _ Hok) in Hrun.
  injection Hrun as <- _.
  cbn [external_user_emails external_user_group_ids is_public].
  split; [|split].
  - intros e. rewrite tally_users. simpl.
    split; [intros [?%not_elem_of_empty|?]; done|by right].
  - intros g. rewrite elem_of_union, tally_groups. simpl.
    split.
    + intros [[?%not_elem_of_empty|?]|Hg]; [done|by left|].
      right. split; [done|].
      destruct (drive_id i) as [g'|];
        [by apply elem_of_singleton in Hg as ->|by apply not_elem_of_empty in Hg].
    + intros [?|[_ Hg]]; [by left; right|].
      right. rewrite Hg. by apply elem_of_singleton.
  - rewrite tally_public. simpl. split.
    + intros [?|(p & Hp & Hg)]; [done|]. exists p. split; [done|].
      by apply grants_public_spec.
    + intros (p & Hp & Hg). right. exists p. split; [done|].
      by apply grants_public_spec.
Qed.

(** C9.  A descriptor with a non-empty list of embedded permission entries
    is classified from that list as it stands.  The resolver issues no fetch
    and leaves the cache alone; it returns a record whenever every embedded
    entry is classifiable; and the record it returns has as users the emails
    of the embedded user entries, as groups the emails of the embedded group
    entries and the parent collection, and is public exactly when an
    embedded entry is of kind anyone or a domain entry of the configured
    domain. *)
Theorem embedded_permissions_no_fetch drive c d i p l w :
  perm_sync_data d = Some i → permissions i = Some (p :: l) →
  (∃ out t, _get_permissions_from_slim_doc drive c d w = (out, log t w)
            ∧ fetches t = []
            ∧ (Forall (λ q, classifiable q = true) (p :: l) →
               ∃ r, out = Ok r))
  ∧ ∀ r w', _get_permissions_from_slim_doc drive c d w = (Ok r, w') →
      (∀ e, e ∈ external_user_emails r
            ↔ ∃ q, q ∈ p :: l ∧ q !! "type" = Some "user"
                   ∧ q !! "emailAddress" = Some e)
      ∧ (∀ g, g ∈ external_user_group_ids r
              ↔ (∃ q, q ∈ p :: l ∧ q !! "type" = Some "group"
                      ∧ q !! "emailAddress" = Some g)
                ∨ drive_id i = Some g)
      ∧ (is_public r = true
         ↔ ∃ q, q ∈ p :: l
             ∧ (q !! "type" = Some "anyone"
                ∨ (q !! "type" = Some "domain"
                   ∧ str_truthy (google_domain c) = true
                   ∧ q !! "domain" = google_domain c))).
Proof.
  intros Hd Hp. rewrite resolver_run, (resolve_embedded _ _ _ _ _ _ _ Hd Hp).
  unfold info_of. rewrite Hd. simpl default. split.
  - destruct (access_of_permissions_logs c d i (p :: l) w)
      as (out & t & Hrun & Ht).
    exists out, t. split; [done|]. split; [by apply fetches_warnings|].
    intros Hok.
    destruct (access_of_permissions_ok c d i (p :: l) w Hok) as (r & t' & Hrun').
    rewrite Hrun' in Hrun. injection Hrun as <- _. by exists r.
  - intros r w' Hrun.
    destruct (access_of_permissions_content _ _ _ _ _ _ _ Hrun)
      as (Husers & Hgroups & Hpublic).
    split; [exact Husers|]. split; [|exact Hpublic].
    intros g. rewrite Hgroups. split.
    + intros [?|[_ ?]]; [by left|by right].
    + intros [?|?]; [by left|by right].
Qed.

(** C3 (as amended).  For a descriptor without embedded entries that carries
    a non-empty document identifier and whose referenced identifiers are all
    in the cache, the resolved list is the cached entries in the order of
    the references.  The resolver issues no fetch and leaves the cache alone;
    it returns a record whenever every cached entry is classifiable; and the
    record it returns is the classification of the cached entries: the
    emails of the cached user entries, the emails of the cached group entries
    with the parent collection when there are entries, and public exactly
    when a cached entry is of kind anyone or a domain entry of the configured
    domain. *)
Theorem cached_ids_no_fetch drive c d i ids w :
  perm_sync_data d = Some i → list_truthy (permissions i) = false →
  permission_ids i = Some ids →
  str_truthy (psd_doc_id i) = true →
  Forall (λ pid, is_Some (cache w !! pid)) ids →
  resolve_permissions_list drive c d w
  = (Ok (omap (λ pid, cache w !! pid) ids), w)
  ∧ (∃ out t, _get_permissions_from_slim_doc drive c d w = (out, log t w)
              ∧ fetches t = []
              ∧ (Forall (λ q, classifiable q = true)
                   (omap (λ pid, cache w !! pid) ids) →
                 ∃ r, out = Ok r))
  ∧ ∀ r w', _get_permissions_from_slim_doc drive c d w = (Ok r, w') →
      (∀ e, e ∈ external_user_emails r
            ↔ ∃ q, q ∈ omap (λ pid, cache w !! pid) ids
                   ∧ q !! "type" = Some "user"
                   ∧ q !! "emailAddress" = Some e)
      ∧ (∀ g, g ∈ external_user_group_ids r
              ↔ (∃ q, q ∈ omap (λ pid, cache w !! pid) ids
                      ∧ q !! "type" = Some "group"
                      ∧ q !! "emailAddress" = Some g)
                ∨ (omap (λ pid, cache w !! pid) ids ≠ []
                   ∧ drive_id i = Some g))
      ∧ (is_public r = true
         ↔ ∃ q, q ∈ omap (λ pid, cache w !! pid) ids
             ∧ (q !! "type" = Some "anyone"
                ∨ (q !! "type" = Some "domain"
                   ∧ str_truthy (google_domain c) = true
                   ∧ q !! "domain" = google_domain c))).
Proof.
  intros Hd Hp Hi Hdoc Hall.
  assert (resolve_permissions_list drive c d w
          = (Ok (omap (λ pid, cache w !! pid) ids), w)) as Hres.
  { destruct ids as [|pid ids].
    - rewrite (resolve_no_references _ _ _ _ _ Hd Hp); [done|]. by rewrite Hi.
    - rewrite (resolve_referenced _ _ _ _ _ _ Hd Hp Hi); [|done].
      by apply fetch_all_cached. }
  split; [exact Hres|].
  rewrite resolver_run, Hres. unfold info_of. rewrite Hd. simpl default.
  set (cached := omap (λ pid, cache w !! pid) ids). split.
  - destruct (access_of_permissions_logs c d i cached w)
      as (out & t & Hrun & Ht).
    exists out, t. split; [done|]. split; [by apply fetches_warnings|].
    intros Hok.
    destruct (access_of_permissions_ok c d i cached w Hok) as (r & t' & Hrun').
    rewrite Hrun' in Hrun. injection Hrun as <- _. by exists r.
  - intros r w' Hrun.
    exact (access_of_permissions_content _ _ _ _ _ _ _ Hrun).
Qed.

(** C8, counterexample.  One embedded entry, the empty dict, and a parent
    collection: the list is not empty, so the early return is not taken; the
    entry is skipped and line 139 puts the parent collection in the groups. *)
Lemma skipped_entries_keep_drive_id :
  ¬ unusable_entries_give_private no_drive conn0 doc_skipped_drive world0.
Proof.
  intros H. destruct (H [∅] world0 eq_refl) as (w2 & Hrun).
  { by repeat constructor. }
  vm_compute in Hrun. discriminate.
Qed.

Lemma embedded_permissions_no_fetch_witness :
  (∃ out t, _get_permissions_from_slim_doc no_drive conn0 doc_d1 world0
            = (out, log t world0)
            ∧ fetches t = []
            ∧ (Forall (λ q, classifiable q = true) [p_anyone] →
               ∃ r, out = Ok r))
  ∧ ∀ r w', _get_permissions_from_slim_doc no_drive conn0 doc_d1 world0
            = (Ok r, w') →
      (∀ e, e ∈ external_user_emails r
            ↔ ∃ q, q ∈ [p_anyone] ∧ q !! "type" = Some "user"
                   ∧ q !! "emailAddress" = Some e)
      ∧ (∀ g, g ∈ external_user_group_ids r
              ↔ (∃ q, q ∈ [p_anyone] ∧ q !! "type" = Some "group"
                      ∧ q !! "emailAddress" = Some g)
                ∨ drive_id info_d1 = Some g)
      ∧ (is_public r = true
         ↔ ∃ q, q ∈ [p_anyone]
             ∧ (q !! "type" = Some "anyone"
                ∨ (q !! "type" = Some "domain"
                   ∧ str_truthy (google_domain conn0) = true
                   ∧ q !! "domain" = google_domain conn0))).
Proof.
  apply (embedded_permissions_no_fetch no_drive conn0 doc_d1 info_d1 p_anyone []
           world0); reflexivity.
Defined.

Lemma cached_ids_no_fetch_witness :
  resolve_permissions_list no_drive conn0 doc_d7 world_cached
  = (Ok (omap (λ pid, cache world_cached !! pid) ["p1"]), world_cached)
  ∧ (∃ out t, _get_permissions_from_slim_doc no_drive conn0 doc_d7 world_cached
              = (out, log t world_cached)
              ∧ fetches t = []
              ∧ (Forall (λ q, classifiable q = true)
                   (omap (λ pid, cache world_cached !! pid) ["p1"]) →
                 ∃ r, out = Ok r))
  ∧ ∀ r w', _get_permissions_from_slim_doc no_drive conn0 doc_d7 world_cached
            = (Ok r, w') →
      (∀ e, e ∈ external_user_emails r
            ↔ ∃ q, q ∈ omap (λ pid, cache world_cached !! pid) ["p1"]
                   ∧ q !! "type" = Some "user"
                   ∧ q !! "emailAddress" = Some e)
      ∧ (∀ g, g ∈ external_user_group_ids r
              ↔ (∃ q, q ∈ omap (λ pid, cache world_cached !! pid) ["p1"]
                      ∧ q !! "type" = Some "group"
                      ∧ q !! "emailAddress" = Some g)
                ∨ (omap (λ pid, cache world_cached !! pid) ["p1"] ≠ []
                   ∧ drive_id info_d7 = Some g))
      ∧ (is_public r = true
         ↔ ∃ q, q ∈ omap (λ pid, cache world_cached !! pid) ["p1"]
             ∧ (q !! "type" = Some "anyone"
                ∨ (q !! "type" = Some "domain"
                   ∧ str_truthy (google_domain conn0) = true
                   ∧ q !! "domain" = google_domain conn0))).
Proof.
  apply (cached_ids_no_fetch no_drive conn0 doc_d7 info_d7 ["p1"] world_cached);
    try reflexivity.
  repeat constructor. exists p_anyone1. vm_compute. reflexivity.
Defined.

(** A run that reaches the write loop: the cache holds an anyone entry under
    "p1", the descriptor also references "p2", and the fetch returns a user
    entry with id "p1" and a group entry with id "p2".  The entry under "p1"
    is overwritten and the one under "p2" added. *)
Lemma run_never_evicts_cache_witness :
  is_Some (cache world_after_d11 !! "p1").
Proof.
  apply (run_never_evicts_cache drive_two 0 (cc_of [[doc_d11]]) None
           world_cached (Ok tt) world_after_d11 "p1").
  - vm_compute. reflexivity.
  - exists p_anyone1. vm_compute. reflexivity.
Defined.

Lemma world_cached_keyed_by_id : cache_keyed_by_id world_cached.
Proof.
  intros pid p. unfold world_cached. simpl.
  by intros [<- <-]%lookup_singleton_Some.
Qed.

Lemma run_keeps_cache_keyed_by_id_witness :
  cache_keyed_by_id world_after_d11.
Proof.
  apply (run_keeps_cache_keyed_by_id drive_two 0 (cc_of [[doc_d11]]) None
           world_cached (Ok tt) world_after_d11).
  - vm_compute. reflexivity.
  - exact world_cached_keyed_by_id.
Defined.
